(** * ai-doc-assistant: the document Q&A pipeline of the backend

    A shallow embedding of the backend's TypeScript sources:

    - [utils/openaiService.ts]    : [askQuestion] and its answer/citation parsing;
    - [utils/documentProcessor.ts]: [processDocument] and the three extractors;
    - [middleware/upload.ts]      : [storage], [fileFilter], [handleMulterError];
    - [controllers/document.controller.ts] : [chatWithDocument], [exportNotes].

    JavaScript strings are sequences of UTF-16 code units and are modelled as
    [list N].  Everything outside the repository (the OpenAI client, the file
    system, the PDF and DOCX decoders, the clock, the locale) is an explicit
    input of the function that uses it. *)

From Stdlib Require Import NArith ZArith Strings.String Strings.Ascii DecimalString.
From stdpp Require Import base option list gmap.

Local Open Scope N_scope.

(** ** JavaScript strings *)

Module Js.

(** A UTF-16 code unit. *)
Definition char := N.

Definition jsstring := list N.

(** A source literal, read as its sequence of code units. *)
Definition lit (s : string) : jsstring :=
  N_of_ascii <$> list_ascii_of_string s.

(** Decimal rendering of a non-negative integer, as template literals and
    string concatenation do for integral numbers. *)
Definition ofNumber (n : N) : jsstring :=
  lit (NilEmpty.string_of_uint (N.to_uint n)).

(** ECMAScript [WhiteSpace] and [LineTerminator]: the characters removed by
    [String.prototype.trim] and matched by the regular-expression class
    [\s]. *)
Definition isWhiteSpace (c : char) : bool :=
  (c =? 0x09) || (c =? 0x0a) || (c =? 0x0b) || (c =? 0x0c) || (c =? 0x0d)
  || (c =? 0x20) || (c =? 0xa0) || (c =? 0x1680)
  || ((0x2000 <=? c) && (c <=? 0x200a))
  || (c =? 0x2028) || (c =? 0x2029) || (c =? 0x202f) || (c =? 0x205f)
  || (c =? 0x3000) || (c =? 0xfeff).

Fixpoint trimStart (s : jsstring) : jsstring :=
  match s with
  | [] => []
  | c :: r => if isWhiteSpace c then trimStart r else s
  end.

Definition trimEnd (s : jsstring) : jsstring :=
  reverse (trimStart (reverse s)).

(** [s.trim()] *)
Definition trim (s : jsstring) : jsstring := trimEnd (trimStart s).

(** Truthiness of a string: only the empty string is falsy. *)
Definition truthy (s : jsstring) : bool :=
  match s with [] => false | _ :: _ => true end.

(** Truthiness of a possibly [undefined]/[null] string. *)
Definition truthy_opt (s : option jsstring) : bool :=
  match s with None => false | Some s => truthy s end.

(** Case folding of the [i] flag (without the [u] flag).  The patterns of
    this program are ASCII; ECMAScript's [Canonicalize] never maps a
    non-ASCII code unit to an ASCII one, so against such patterns it agrees
    with upper-casing the ASCII letters and leaving the rest alone. *)
Definition canonicalize (c : char) : char :=
  if (0x61 <=? c) && (c <=? 0x7a) then c - 0x20 else c.

(** [toLowerCase] on the ASCII range.  The only non-ASCII code units whose
    lower case is ASCII are U+212A (to [k]) and U+0130 (to [i] followed by
    a combining dot); neither letter occurs in the strings this program
    compares a lower-cased value with. *)
Definition toLowerCase (s : jsstring) : jsstring :=
  (fun c => if (0x41 <=? c) && (c <=? 0x5a) then c + 0x20 else c) <$> s.

(** The pattern [pat] matches, ignoring case, at the start of [s]. *)
Fixpoint startsWith_ci (pat s : jsstring) : bool :=
  match pat, s with
  | [], _ => true
  | _ :: _, [] => false
  | p :: pat', c :: s' =>
      (canonicalize p =? canonicalize c) && startsWith_ci pat' s'
  end.

(** Leftmost case-insensitive occurrence of a literal: the text that
    follows it, or [None] when the literal does not occur. *)
Fixpoint after_ci (pat s : jsstring) : option jsstring :=
  if startsWith_ci pat s then Some (drop (length pat) s)
  else match s with
       | [] => None
       | _ :: r => after_ci pat r
       end.

(** The lazy group [([\s\S]*?)] followed by the lookahead [(?=pat|$)]: the
    shortest prefix of [s] that ends where [pat] starts (ignoring case) or
    at the end of the input. *)
Fixpoint lazy_until_ci (pat s : jsstring) : jsstring :=
  if startsWith_ci pat s then []
  else match s with
       | [] => []
       | c :: r => c :: lazy_until_ci pat r
       end.

Definition LBRACKET : char := 0x5b.
Definition RBRACKET : char := 0x5d.

(** The greedy class [[^\]]+]: the longest run of characters other than
    the closing bracket, and what follows it. *)
Fixpoint span_not_close (s : jsstring) : jsstring * jsstring :=
  match s with
  | [] => ([], [])
  | c :: r =>
      if c =? RBRACKET then ([], s)
      else let '(run, rest) := span_not_close r in (c :: run, rest)
  end.

(** One attempt of [/\[([^\]]+)\]/] at the start of [s]: the matched text.
    Giving characters back from the greedy run cannot help, as every
    character of the run differs from the closing bracket. *)
Definition bracket_here (s : jsstring) : option jsstring :=
  match s with
  | c :: r =>
      if c =? LBRACKET then
        match span_not_close r with
        | ((_ :: _) as run, close :: _) => Some (c :: run ++ [close])
        | _ => None
        end
      else None
  | [] => None
  end.

(** [s.match(/\[([^\]]+)\]/g)]: all matches from left to right, each
    search resuming where the previous match ended ([skip] counts the
    characters of the last match still to be passed over).  The empty
    list stands for the [null] that JavaScript returns without a match. *)
Fixpoint bracket_scan (skip : nat) (s : jsstring) : list jsstring :=
  match s with
  | [] => []
  | _ :: r =>
      match skip with
      | S k => bracket_scan k r
      | O =>
          match bracket_here s with
          | Some m => m :: bracket_scan (pred (length m)) r
          | None => bracket_scan 0 r
          end
      end
  end.

Definition match_brackets (s : jsstring) : list jsstring := bracket_scan 0 s.

(** [m.replace(/[\[\]]/g, "")] *)
Definition strip_brackets (m : jsstring) : jsstring :=
  filter (λ c, c ≠ LBRACKET ∧ c ≠ RBRACKET) m.

(** [xs.join(sep)] *)
Fixpoint join (sep : jsstring) (xs : list jsstring) : jsstring :=
  match xs with
  | [] => []
  | [x] => x
  | x :: r => x ++ sep ++ join sep r
  end.

End Js.

Import Js.

Arguments lit s%_string.

(** A string made of white space only (the empty string included). *)
Definition blankString (s : jsstring) : Prop :=
  Forall (λ c, isWhiteSpace c = true) s.

(** ** Shared types ([types/index.ts]) *)

Module Types.

Definition ALLOWED_MIME_TYPES : list jsstring :=
  [ lit "application/pdf";
    lit "application/vnd.openxmlformats-officedocument.wordprocessingml.document";
    lit "text/plain" ].

Definition ALLOWED_EXTENSIONS : list jsstring :=
  [ lit ".pdf"; lit ".docx"; lit ".txt" ].

Definition MAX_FILE_SIZE : N := 10 * 1024 * 1024.

Record ProcessDocumentResult := {
  pd_success : bool;
  pd_text : jsstring;
  pd_error : option jsstring
}.

Inductive Role := user | model.

Record ConversationMessage := {
  role : Role;
  content : jsstring
}.

Record QuestionAnswerResult := {
  answer : jsstring;
  citations : list jsstring
}.

Record AIServiceResult (T : Type) := {
  success : bool;
  data : option T;
  error : option jsstring
}.
Arguments success {T}.
Arguments data {T}.
Arguments error {T}.

Record DocumentSession := {
  sessionId : jsstring;
  filename : jsstring;
  filepath : jsstring;
  mimetype : jsstring;
  text : jsstring;
  uploadedAt : N;
  conversationHistory : list ConversationMessage
}.

#[export] Instance Role_eq_dec : EqDecision Role.
Proof. solve_decision. Defined.

#[export] Instance ConversationMessage_eq_dec : EqDecision ConversationMessage.
Proof. solve_decision. Defined.

End Types.

Import Types.

(** ** What a JavaScript call can do: return a value or throw *)

Inductive thrown :=
  | ErrorObject (message : jsstring)   (* an instance of [Error] *)
  | OtherValue.                        (* anything else *)

Inductive outcome (T : Type) :=
  | Returns (v : T)
  | Throws (e : thrown).
Arguments Returns {T}.
Arguments Throws {T}.

(** ** The question answering service ([utils/openaiService.ts]) *)

Module OpenaiService.

Inductive ChatRole := system | chat_user | assistant.

Record ChatMessage := {
  msg_role : ChatRole;
  msg_content : jsstring
}.

(** The chat-completion endpoint.  Its result is the value of
    [completion.choices[0]?.message?.content]: [None] when any link of that
    chain is [undefined] or [null]. *)
Definition Completions := list ChatMessage → outcome (option jsstring).

Definition ANSWER : jsstring := lit "ANSWER:".
Definition CITATIONS : jsstring := lit "CITATIONS:".

(** Group 1 of [fullResponse.match(/ANSWER:\s*([\s\S]*?)(?=CITATIONS:|$)/i)].
    The greedy [\s*] never gives characters back: the lazy group followed
    by [$] succeeds from wherever it starts. *)
Definition answerMatch (fullResponse : jsstring) : option jsstring :=
  match after_ci ANSWER fullResponse with
  | Some rest => Some (lazy_until_ci CITATIONS (trimStart rest))
  | None => None
  end.

(** Group 1 of [fullResponse.match(/CITATIONS:\s*([\s\S]*?)$/i)]. *)
Definition citationsMatch (fullResponse : jsstring) : option jsstring :=
  match after_ci CITATIONS fullResponse with
  | Some rest => Some (trimStart rest)
  | None => None
  end.

(** The body of both [forEach] callbacks: strip the brackets, trim, and
    push unless empty or already there. *)
Definition pushCitation (citations : list jsstring) (m : jsstring)
  : list jsstring :=
  let citation := trim (strip_brackets m) in
  if truthy citation && negb (bool_decide (citation ∈ citations))
  then citations ++ [citation]
  else citations.

Definition forEachMatch (citations : list jsstring) (matches : list jsstring)
  : list jsstring :=
  foldl pushCitation citations matches.

(** Lines 269-303 of [askQuestion]: parse answer and citations. *)
Definition parseResponse (fullResponse : jsstring) : QuestionAnswerResult :=
  let answer :=
    match answerMatch fullResponse with
    | Some g => trim g
    | None => fullResponse
    end in
  let citationsText :=
    match citationsMatch fullResponse with
    | Some g => trim g
    | None => []
    end in
  let citations : list jsstring := [] in
  let citations :=
    if truthy citationsText
    then forEachMatch citations (match_brackets citationsText)
    else citations in
  let citations :=
    if (length citations =? 0)%nat
    then forEachMatch citations (match_brackets answer)
    else citations in
  {| answer := answer; citations := citations |}.

Definition systemPrompt (documentText : jsstring) : jsstring :=
  lit "You are an AI assistant helping users understand a document. Answer questions based on the document content provided.

DOCUMENT CONTENT:
" ++ documentText ++ lit "

INSTRUCTIONS:
1. Answer the question accurately based on the document content
2. Include specific citations by referencing paragraph numbers or sections
3. If the answer spans multiple sections, cite all relevant parts
4. If the information is not in the document, clearly state that
5. Format citations as [Paragraph X] or [Section Y]

Please provide your answer with citations in the format:
ANSWER: [Your detailed answer here]
CITATIONS: [List of specific paragraph numbers or sections referenced]".

Definition buildMessages (question documentText : jsstring)
    (conversationHistory : list ConversationMessage) : list ChatMessage :=
  [ {| msg_role := system; msg_content := systemPrompt documentText |} ]
  ++ ((λ msg, {| msg_role := match role msg with
                             | user => chat_user
                             | model => assistant
                             end;
                 msg_content := content msg |}) <$> conversationHistory)
  ++ [ {| msg_role := chat_user; msg_content := question |} ].

Definition failure {T} (message : jsstring) : AIServiceResult T :=
  {| success := false; data := None; error := Some message |}.

(** [askQuestion(question, documentText, conversationHistory)].
    [OPENAI_API_KEY] is the environment variable of that name and [create]
    is [openai.chat.completions.create]. *)
Definition askQuestion (OPENAI_API_KEY : option jsstring) (create : Completions)
    (question documentText : jsstring)
    (conversationHistory : list ConversationMessage)
  : AIServiceResult QuestionAnswerResult :=
  if negb (truthy question) || (length (trim question) =? 0)%nat then
    failure (lit "Question cannot be empty")
  else if negb (truthy documentText) || (length (trim documentText) =? 0)%nat then
    failure (lit "Document text is empty")
  else if negb (truthy_opt OPENAI_API_KEY) then
    failure (lit "OPENAI_API_KEY is not configured")
  else
    match create (buildMessages question documentText conversationHistory) with
    | Returns content =>
        let fullResponse :=
          match content with
          | Some c => if truthy c then c else []
          | None => []
          end in
        {| success := true;
           data := Some (parseResponse fullResponse);
           error := None |}
    | Throws e =>
        let errorMessage :=
          match e with
          | ErrorObject message => message
          | OtherValue => lit "Unknown error occurred"
          end in
        failure (lit "Failed to answer question: " ++ errorMessage)
    end.

End OpenaiService.

Import OpenaiService.

(** ** Node's [path] module (POSIX flavour), as far as the upload code uses it *)

Module NodePath.

Local Open Scope Z_scope.

Definition CHAR_DOT : char := 0x2e%N.
Definition CHAR_FORWARD_SLASH : char := 0x2f%N.

(** [s.slice(from, to)] for indices within the string. *)
Definition slice (s : jsstring) (from to : Z) : jsstring :=
  take (Z.to_nat (to - from)) (drop (Z.to_nat from) s).

Record ExtScan := {
  startDot : Z;
  startPart : Z;
  endIdx : Z;
  matchedSlash : bool;
  preDotState : Z
}.

(** The backwards loop of [extname]: [codes] are the characters at the
    indices [i], [i - 1], ... 0. *)
Fixpoint extname_loop (codes : list char) (i : Z) (st : ExtScan) : ExtScan :=
  match codes with
  | [] => st
  | code :: before =>
      if (code =? CHAR_FORWARD_SLASH)%N then
        if negb (matchedSlash st) then
          {| startDot := startDot st; startPart := i + 1; endIdx := endIdx st;
             matchedSlash := matchedSlash st; preDotState := preDotState st |}
        else extname_loop before (i - 1) st
      else
        let st :=
          if endIdx st =? -1 then
            {| startDot := startDot st; startPart := startPart st;
               endIdx := i + 1; matchedSlash := false;
               preDotState := preDotState st |}
          else st in
        let st :=
          if (code =? CHAR_DOT)%N then
            if startDot st =? -1 then
              {| startDot := i; startPart := startPart st; endIdx := endIdx st;
                 matchedSlash := matchedSlash st; preDotState := preDotState st |}
            else if negb (preDotState st =? 1) then
              {| startDot := startDot st; startPart := startPart st;
                 endIdx := endIdx st; matchedSlash := matchedSlash st;
                 preDotState := 1 |}
            else st
          else if negb (startDot st =? -1) then
            {| startDot := startDot st; startPart := startPart st;
               endIdx := endIdx st; matchedSlash := matchedSlash st;
               preDotState := -1 |}
          else st in
        extname_loop before (i - 1) st
  end.

(** [path.extname(p)] *)
Definition extname (p : jsstring) : jsstring :=
  let st := extname_loop (rev p) (Z.of_nat (length p) - 1)
              {| startDot := -1; startPart := 0; endIdx := -1;
                 matchedSlash := true; preDotState := 0 |} in
  if (startDot st =? -1) || (endIdx st =? -1) || (preDotState st =? 0)
     || ((preDotState st =? 1) && (startDot st =? endIdx st - 1)
         && (startDot st =? startPart st + 1))
  then []
  else slice p (startDot st) (endIdx st).

Record BaseScan := {
  b_start : Z;
  b_end : Z;
  b_matchedSlash : bool;
  extIdx : Z;
  firstNonSlashEnd : Z
}.

(** The backwards loop of [basename] when a suffix is given. *)
Fixpoint basename_suffix_loop (suffix : jsstring) (codes : list char) (i : Z)
    (st : BaseScan) : BaseScan :=
  match codes with
  | [] => st
  | code :: before =>
      if (code =? CHAR_FORWARD_SLASH)%N then
        if negb (b_matchedSlash st) then
          {| b_start := i + 1; b_end := b_end st;
             b_matchedSlash := b_matchedSlash st; extIdx := extIdx st;
             firstNonSlashEnd := firstNonSlashEnd st |}
        else basename_suffix_loop suffix before (i - 1) st
      else
        let st :=
          if firstNonSlashEnd st =? -1 then
            {| b_start := b_start st; b_end := b_end st;
               b_matchedSlash := false; extIdx := extIdx st;
               firstNonSlashEnd := i + 1 |}
          else st in
        let st :=
          if 0 <=? extIdx st then
            if bool_decide (suffix !! Z.to_nat (extIdx st) = Some code) then
              let extIdx' := extIdx st - 1 in
              {| b_start := b_start st;
                 b_end := if extIdx' =? -1 then i else b_end st;
                 b_matchedSlash := b_matchedSlash st; extIdx := extIdx';
                 firstNonSlashEnd := firstNonSlashEnd st |}
            else
              {| b_start := b_start st; b_end := firstNonSlashEnd st;
                 b_matchedSlash := b_matchedSlash st; extIdx := -1;
                 firstNonSlashEnd := firstNonSlashEnd st |}
          else st in
        basename_suffix_loop suffix before (i - 1) st
  end.

(** The backwards loop of [basename] without a usable suffix; the state
    is [(start, end, matchedSlash)]. *)
Fixpoint basename_plain_loop (codes : list char) (i : Z)
    (st : Z * Z * bool) : Z * Z * bool :=
  match codes with
  | [] => st
  | code :: before =>
      let '(start, end_, matched) := st in
      if (code =? CHAR_FORWARD_SLASH)%N then
        if negb matched then (i + 1, end_, matched)
        else basename_plain_loop before (i - 1) st
      else if end_ =? -1 then
        basename_plain_loop before (i - 1) (start, i + 1, false)
      else basename_plain_loop before (i - 1) st
  end.

(** [path.basename(p, suffix)] *)
Definition basename (p suffix : jsstring) : jsstring :=
  let len := Z.of_nat (length p) in
  if (0 <? Z.of_nat (length suffix)) && (Z.of_nat (length suffix) <=? len) then
    if bool_decide (suffix = p) then []
    else
      let st := basename_suffix_loop suffix (rev p) (len - 1)
                  {| b_start := 0; b_end := -1; b_matchedSlash := true;
                     extIdx := Z.of_nat (length suffix) - 1;
                     firstNonSlashEnd := -1 |} in
      let end_ :=
        if b_start st =? b_end st then firstNonSlashEnd st
        else if b_end st =? -1 then len
        else b_end st in
      slice p (b_start st) end_
  else
    let '(start, end_, _) := basename_plain_loop (rev p) (len - 1) (0, -1, true) in
    if end_ =? -1 then [] else slice p start end_.

End NodePath.

(** ** The upload middleware ([middleware/upload.ts]) *)

Module Upload.

(** The part of [Express.Multer.File] known when the file is filtered,
    and the number of bytes the client then sends.  [originalname] is the
    name as multer's parser decoded it from the request; for a name
    outside ASCII that is not the string the browser showed. *)
Record IncomingFile := {
  originalname : jsstring;
  in_mimetype : jsstring;
  size : N
}.

(** [file] as the storage engine leaves it in [req.file]. *)
Record StoredFile := {
  st_originalname : jsstring;
  st_mimetype : jsstring;
  st_filename : jsstring;
  st_path : jsstring
}.

Inductive UploadError :=
  | MulterError (code : jsstring) (message : jsstring)
  | PlainError (message : jsstring).

(** The class [[^a-zA-Z0-9-_]] of the sanitising [replace]. *)
Definition keptInName (c : char) : bool :=
  ((0x61 <=? c) && (c <=? 0x7a)) || ((0x41 <=? c) && (c <=? 0x5a))
  || ((0x30 <=? c) && (c <=? 0x39)) || (c =? 0x2d) || (c =? 0x5f).

(** [storage.filename]; [timestamp] is [Date.now()]. *)
Definition storage_filename (timestamp : N) (originalname : jsstring)
  : jsstring :=
  let ext := NodePath.extname originalname in
  let nameWithoutExt := NodePath.basename originalname ext in
  let sanitizedName :=
    (λ c, if keptInName c then c else 0x5f) <$> nameWithoutExt in
  sanitizedName ++ lit "_" ++ ofNumber timestamp ++ ext.

(** [storage.destination] *)
Definition storage_destination : jsstring := lit "uploads/".

(** [fileFilter]: the error handed to the callback, or [None] for
    [cb(null, true)]. *)
Definition fileFilter (file : IncomingFile) : option jsstring :=
  let ext := toLowerCase (NodePath.extname (originalname file)) in
  let mimetype := in_mimetype file in
  if negb (bool_decide (ext ∈ ALLOWED_EXTENSIONS)) then
    Some (lit "Invalid file type. Only "
          ++ join (lit ", ") ALLOWED_EXTENSIONS
          ++ lit " files are allowed.")
  else if negb (bool_decide (mimetype ∈ ALLOWED_MIME_TYPES)) then
    Some (lit "Invalid MIME type. File must be PDF, DOCX, or TXT.")
  else None.

(** [uploadMiddleware.single("file")] for a request carrying one file in
    that field.  Multer consults [fileFilter] when the part starts, then
    streams the body to the storage engine.  Its parser truncates the
    stream and reports the limit as soon as the number of bytes received
    reaches [limits.fileSize], and multer then fails the request with
    [LIMIT_FILE_SIZE]: a file of exactly [MAX_FILE_SIZE] bytes is refused,
    the largest stored file has one byte less. *)
Definition uploadMiddleware (timestamp : N) (file : IncomingFile)
  : UploadError + StoredFile :=
  match fileFilter file with
  | Some message => inl (PlainError message)
  | None =>
      if MAX_FILE_SIZE <=? size file then
        inl (MulterError (lit "LIMIT_FILE_SIZE") (lit "File too large"))
      else
        let name := storage_filename timestamp (originalname file) in
        inr {| st_originalname := originalname file;
               st_mimetype := in_mimetype file;
               st_filename := name;
               st_path := storage_destination ++ name |}
  end.

End Upload.

(** ** Text extraction ([utils/documentProcessor.ts]) *)

Module DocumentProcessor.

(** The file system and the two decoding libraries, as seen by the
    extractor.  [pdfParse] yields [pdfData.text] and [extractRawText]
    yields [result.value]; either may be missing. *)
Record World := {
  access : jsstring → outcome unit;
  readFile : jsstring → outcome (list N);
  readFileUtf8 : jsstring → outcome jsstring;
  pdfParse : list N → outcome (option jsstring);
  extractRawText : jsstring → outcome (option jsstring)
}.

(** The [catch] clause shared by the three extractors: whatever was
    thrown is rethrown as an [Error] whose message starts with [prefix]. *)
Definition rethrow (prefix : jsstring) (e : thrown) : outcome jsstring :=
  match e with
  | ErrorObject message => Throws (ErrorObject (prefix ++ message))
  | OtherValue => Throws (ErrorObject (prefix ++ lit "Unknown error"))
  end.

(** [!text || text.trim().length === 0] *)
Definition blank (text : option jsstring) : bool :=
  match text with
  | None => true
  | Some t => negb (truthy t) || (length (trim t) =? 0)%nat
  end.

Definition extractTextFromPDF (w : World) (filePath : jsstring)
  : outcome jsstring :=
  let prefix := lit "Failed to extract text from PDF: " in
  match readFile w filePath with
  | Throws e => rethrow prefix e
  | Returns dataBuffer =>
      match pdfParse w dataBuffer with
      | Throws e => rethrow prefix e
      | Returns pdfData_text =>
          if blank pdfData_text then
            rethrow prefix
              (ErrorObject
                 (lit "PDF document is empty or contains no extractable text"))
          else Returns (default [] pdfData_text)
      end
  end.

Definition extractTextFromDOCX (w : World) (filePath : jsstring)
  : outcome jsstring :=
  let prefix := lit "Failed to extract text from DOCX: " in
  match extractRawText w filePath with
  | Throws e => rethrow prefix e
  | Returns result_value =>
      if blank result_value then
        rethrow prefix
          (ErrorObject
             (lit "DOCX document is empty or contains no extractable text"))
      else Returns (default [] result_value)
  end.

Definition extractTextFromTXT (w : World) (filePath : jsstring)
  : outcome jsstring :=
  let prefix := lit "Failed to read TXT file: " in
  match readFileUtf8 w filePath with
  | Throws e => rethrow prefix e
  | Returns text =>
      if blank (Some text) then
        rethrow prefix (ErrorObject (lit "TXT file is empty"))
      else Returns text
  end.

Definition failed (message : jsstring) : ProcessDocumentResult :=
  {| pd_success := false; pd_text := []; pd_error := Some message |}.

(** [processDocument(filePath, mimetype)] *)
Definition processDocument (w : World) (filePath mimetype : jsstring)
  : ProcessDocumentResult :=
  match access w filePath with
  | Throws _ => failed (lit "File not found")
  | Returns _ =>
      let extracted : option (outcome jsstring) :=
        if bool_decide (mimetype = lit "application/pdf") then
          Some (extractTextFromPDF w filePath)
        else if bool_decide
                  (mimetype =
                   lit "application/vnd.openxmlformats-officedocument.wordprocessingml.document")
        then Some (extractTextFromDOCX w filePath)
        else if bool_decide (mimetype = lit "text/plain") then
          Some (extractTextFromTXT w filePath)
        else None in
      match extracted with
      | None => failed (lit "Unsupported file type: " ++ mimetype)
      | Some (Returns extractedText) =>
          {| pd_success := true; pd_text := trim extractedText;
             pd_error := None |}
      | Some (Throws (ErrorObject message)) => failed message
      | Some (Throws OtherValue) => failed (lit "Unknown error occurred")
      end
  end.

End DocumentProcessor.

(** ** The request handlers ([controllers/document.controller.ts]) *)

Module Controller.

Inductive Body :=
  | ErrorResponse (error message : jsstring)
  | UploadResponse (sessionId filename preview message : jsstring)
  | ChatResponse (answer : jsstring) (citations : list jsstring)
      (conversationHistory : list ConversationMessage)
  | ExportNotesResponse (markdown filename : jsstring).

Record Response := {
  status : N;
  body : Body
}.

(** [documentSessions] *)
Abbreviation Sessions := (gmap jsstring DocumentSession).

Record ChatRequest := {
  req_sessionId : jsstring;
  req_question : jsstring
}.

(** What a handler needs from its surroundings: the credential, the
    chat-completion endpoint as it answers this request, and the
    locale-dependent rendering of a date. *)
Record Env := {
  OPENAI_API_KEY : option jsstring;
  create : Completions;
  toLocaleString : N → jsstring
}.

Definition sessionNotFound : Response :=
  {| status := 404;
     body := ErrorResponse (lit "Session not found")
               (lit "Invalid sessionId or session expired") |}.

(** [session.conversationHistory.push(...)] twice: the session object
    held by the map is updated in place. *)
Definition pushExchange (question answer : jsstring) (session : DocumentSession)
  : DocumentSession :=
  {| sessionId := sessionId session;
     filename := filename session;
     filepath := filepath session;
     mimetype := mimetype session;
     text := text session;
     uploadedAt := uploadedAt session;
     conversationHistory :=
       (conversationHistory session
          ++ [ {| role := user; content := question |} ])
          ++ [ {| role := model; content := answer |} ] |}.

(** [chatWithDocument].  A missing body field behaves like the empty
    string: both are falsy. *)
Definition chatWithDocument (env : Env) (req : ChatRequest)
    (documentSessions : Sessions) : Response * Sessions :=
  let sessionId := req_sessionId req in
  let question := req_question req in
  if negb (truthy sessionId) || negb (truthy question) then
    ({| status := 400;
        body := ErrorResponse (lit "Invalid request")
                  (lit "sessionId and question are required") |},
     documentSessions)
  else
    match documentSessions !! sessionId with
    | None => (sessionNotFound, documentSessions)
    | Some session =>
        let result :=
          askQuestion (OPENAI_API_KEY env) (create env) question
            (text session) (conversationHistory session) in
        match success result, data result with
        | true, Some result_data =>
            let session' := pushExchange question (answer result_data) session in
            ({| status := 200;
                body := ChatResponse (answer result_data)
                          (citations result_data)
                          (conversationHistory session') |},
             <[sessionId := session']> documentSessions)
        | _, _ =>
            ({| status := 500;
                body := ErrorResponse (lit "AI service error")
                          (match error result with
                           | Some e => if truthy e then e
                                       else lit "Failed to generate response"
                           | None => lit "Failed to generate response"
                           end) |},
             documentSessions)
        end
    end.

(** One turn of the export loop, at index [i]. *)
Definition exportStep (history : list ConversationMessage) (i : nat)
    (markdown : jsstring) : jsstring :=
  match history !! i, history !! (i + 1)%nat with
  | Some question, Some answer =>
      markdown
        ++ (lit "## Q" ++ ofNumber (N.of_nat (i / 2) + 1) ++ lit ": "
            ++ content question ++ lit "

")
        ++ (lit "**Answer:**

" ++ content answer ++ lit "

")
        ++ lit "---

"
  | _, _ => markdown
  end.

(** [for (let i = 0; i < history.length; i += 2) ...], with [fuel]
    bounding the number of turns. *)
Fixpoint exportLoop (fuel : nat) (history : list ConversationMessage)
    (i : nat) (markdown : jsstring) : jsstring :=
  match fuel with
  | O => markdown
  | S fuel' =>
      if (i <? length history)%nat
      then exportLoop fuel' history (i + 2) (exportStep history i markdown)
      else markdown
  end.

(** The last match of [/\.[^/.]+$/] removed: a final dot followed by one
    or more characters that are neither a slash nor a dot. *)
Fixpoint stripExtension (name : jsstring) : jsstring :=
  match name with
  | [] => []
  | c :: r =>
      if (c =? NodePath.CHAR_DOT) && truthy r
         && forallb (λ d, negb ((d =? NodePath.CHAR_FORWARD_SLASH)
                                || (d =? NodePath.CHAR_DOT))) r
      then []
      else c :: stripExtension r
  end.

Definition renderMarkdown (env : Env) (session : DocumentSession) : jsstring :=
  let markdown := lit "# Document Q&A Notes

" in
  let markdown := markdown ++ (lit "**Document:** " ++ filename session ++ lit "
") in
  let markdown :=
    markdown ++ (lit "**Date:** " ++ toLocaleString env (uploadedAt session)
                 ++ lit "

") in
  let markdown := markdown ++ lit "---

" in
  let history := conversationHistory session in
  if (length history =? 0)%nat then
    markdown ++ lit "No questions asked yet.
"
  else exportLoop (length history) history 0 markdown.

(** [exportNotes] *)
Definition exportNotes (env : Env) (sessionId : jsstring)
    (documentSessions : Sessions) : Response * Sessions :=
  if negb (truthy sessionId) then
    ({| status := 400;
        body := ErrorResponse (lit "Invalid request")
                  (lit "sessionId is required") |},
     documentSessions)
  else
    match documentSessions !! sessionId with
    | None => (sessionNotFound, documentSessions)
    | Some session =>
        let markdown := renderMarkdown env session in
        let filename := stripExtension (filename session) ++ lit "_notes.md" in
        ({| status := 200; body := ExportNotesResponse markdown filename |},
         documentSessions)
    end.

(** [handleMulterError] for an upload the middleware refused. *)
Definition handleMulterError (err : Upload.UploadError) : Response :=
  match err with
  | Upload.MulterError code message =>
      if bool_decide (code = lit "LIMIT_FILE_SIZE") then
        {| status := 400;
           body := ErrorResponse (lit "File too large")
                     (lit "File size must not exceed "
                      ++ ofNumber (MAX_FILE_SIZE / (1024 * 1024))
                      ++ lit "MB") |}
      else if bool_decide (code = lit "LIMIT_UNEXPECTED_FILE") then
        {| status := 400;
           body := ErrorResponse (lit "Unexpected field")
                     (lit "Unexpected file field in request") |}
      else {| status := 400; body := ErrorResponse (lit "Upload error") message |}
  | Upload.PlainError message =>
      {| status := 400;
         body := ErrorResponse (lit "File validation error") message |}
  end.

(** [uploadDocument]; [file] is [req.file], [uuid] the fresh [uuidv4()]
    and [now] the value of [new Date()].  Removing the stored file after a
    failed extraction changes nothing that a handler reads later. *)
Definition uploadDocument (w : DocumentProcessor.World) (uuid : jsstring)
    (now : N) (file : option Upload.StoredFile) (documentSessions : Sessions)
  : Response * Sessions :=
  match file with
  | None =>
      ({| status := 400;
          body := ErrorResponse (lit "No file uploaded")
                    (lit "Please upload a file") |},
       documentSessions)
  | Some file =>
      let result :=
        DocumentProcessor.processDocument w (Upload.st_path file)
          (Upload.st_mimetype file) in
      if negb (pd_success result) then
        ({| status := 400;
            body := ErrorResponse (lit "Document processing failed")
                      (match pd_error result with
                       | Some e =>
                           if truthy e then e
                           else lit "Failed to extract text from document"
                       | None => lit "Failed to extract text from document"
                       end) |},
         documentSessions)
      else
        let session :=
          {| sessionId := uuid;
             filename := Upload.st_originalname file;
             filepath := Upload.st_path file;
             mimetype := Upload.st_mimetype file;
             text := pd_text result;
             uploadedAt := now;
             conversationHistory := [] |} in
        let preview :=
          take 200 (pd_text result)
          ++ (if (200 <? length (pd_text result))%nat then lit "..." else []) in
        ({| status := 200;
            body := UploadResponse uuid (Upload.st_originalname file) preview
                      (lit "Document uploaded and processed successfully") |},
         <[uuid := session]> documentSessions)
  end.

(** [POST /upload]: the middleware, then the error handler or the
    controller. *)
Definition postUpload (w : DocumentProcessor.World) (uuid : jsstring)
    (now : N) (file : Upload.IncomingFile) (documentSessions : Sessions)
  : Response * Sessions :=
  match Upload.uploadMiddleware now file with
  | inl err => (handleMulterError err, documentSessions)
  | inr stored => uploadDocument w uuid now (Some stored) documentSessions
  end.

End Controller.

Import Controller.

(** ** The specification's vocabulary

    Definitions that follow the wording of the specification rather than
    the code; the theorems below compare the two. *)

Module Spec.

(** Position of the leftmost case-insensitive occurrence of a literal. *)
Fixpoint index_ci (pat s : jsstring) : option nat :=
  if startsWith_ci pat s then Some 0%nat
  else match s with
       | [] => None
       | _ :: r => S <$> index_ci pat r
       end.

(** The text between the [ANSWER:] marker and the next [CITATIONS:] (or
    the end of the string), trimmed; the whole output when there is no
    [ANSWER:] marker. *)
Definition answer_between (raw : jsstring) : jsstring :=
  match index_ci ANSWER raw with
  | None => raw
  | Some i =>
      let rest := drop (i + length ANSWER) raw in
      let stop := default (length rest) (index_ci CITATIONS rest) in
      trim (take stop rest)
  end.

(** The [CITATIONS:] section: everything after the marker, up to the end
    of the string; empty when the marker is absent. *)
Definition citations_section (raw : jsstring) : jsstring :=
  match index_ci CITATIONS raw with
  | None => []
  | Some i => drop (i + length CITATIONS) raw
  end.

(** Ordered deduplication: the first occurrence of every element stays. *)
Fixpoint first_occurrences (l : list jsstring) : list jsstring :=
  match l with
  | [] => []
  | x :: r => x :: filter (λ y, y ≠ x) (first_occurrences r)
  end.

(** A bracketed substring with its brackets stripped and trimmed. *)
Definition label (m : jsstring) : jsstring := trim (strip_brackets m).


(** The same rule with the labels that are empty after trimming left
    out. *)
Definition labels (s : jsstring) : list jsstring :=
  first_occurrences (filter (λ c, c ≠ []) (label <$> match_brackets s)).

(** The two passes, over an extraction rule [rule]: the [CITATIONS:]
    section first, the answer only if that found nothing. *)
Definition two_pass (rule : jsstring → list jsstring) (raw : jsstring)
  : list jsstring :=
  let first := rule (citations_section raw) in
  if bool_decide (first = []) then rule (answer_between raw) else first.

(** The turns that a list of exchanges leaves in the history. *)
Definition turns (exchanges : list (jsstring * jsstring))
  : list ConversationMessage :=
  exchanges ≫= λ '(question, answer),
    [ {| role := user; content := question |};
      {| role := model; content := answer |} ].

(** The error kinds of the specification, read off a response of the
    chat endpoint: the status code first, then for a 500 the message the
    service produced. *)
Inductive ErrorKind :=
  | EmptyInput | NotFound | ConfigurationError | UpstreamError | InternalError.

Definition errorKind (r : Response) : option ErrorKind :=
  match body r with
  | ErrorResponse _ message =>
      if status r =? 400 then Some EmptyInput
      else if status r =? 404 then Some NotFound
      else if bool_decide (message = lit "Question cannot be empty")
      then Some EmptyInput
      else if bool_decide (message = lit "OPENAI_API_KEY is not configured")
      then Some ConfigurationError
      else if bool_decide
                (take (length (lit "Failed to answer question: ")) message
                 = lit "Failed to answer question: ")
      then Some UpstreamError
      else Some InternalError
  | _ => None
  end.

(** The failure policy of [ask] as the specification states it, at one
    request: [model_fails_or_no_content] says that the completion call
    throws or yields no content. *)
Definition ask_as_claimed (env : Env) (req : ChatRequest)
    (documentSessions : Sessions) : Prop :=
  let r := (chatWithDocument env req documentSessions).1 in
  let blank_question := trim (req_question req) = [] in
  let absent := documentSessions !! req_sessionId req = None in
  let model_fails_or_no_content :=
    ∀ messages,
      match create env messages with
      | Throws _ => True
      | Returns content => truthy_opt content = false
      end in
  (blank_question → errorKind r = Some EmptyInput)
  ∧ (absent → errorKind r = Some NotFound)
  ∧ (model_fails_or_no_content → errorKind r = Some UpstreamError)
  ∧ (¬ blank_question → ¬ absent → ¬ model_fails_or_no_content →
     status r = 200).

(** ASCII letters and digits. *)
Definition isAlphanumeric (c : char) : bool :=
  ((0x61 <=? c) && (c <=? 0x7a)) || ((0x41 <=? c) && (c <=? 0x5a))
  || ((0x30 <=? c) && (c <=? 0x39)).

Definition UNDERSCORE : char := 0x5f.
Definition HYPHEN : char := 0x2d.

(** The stored name as the specification words it: every
    non-alphanumeric character of the base name becomes an underscore. *)
Definition stored_name_as_claimed (timestamp : N) (originalname : jsstring)
  : jsstring :=
  let ext := NodePath.extname originalname in
  ((λ c, if isAlphanumeric c then c else UNDERSCORE)
     <$> NodePath.basename originalname ext)
  ++ lit "_" ++ ofNumber timestamp ++ ext.

(** The upload boundary as the specification words it, at one file: an
    extension with a different declared type is refused as a type error. *)
Definition mismatch_refused (timestamp : N) (file : Upload.IncomingFile) : Prop :=
  toLowerCase (NodePath.extname (Upload.originalname file)) = lit ".pdf" →
  Upload.in_mimetype file = lit "text/plain" →
  ∃ message, Upload.uploadMiddleware timestamp file
             = inl (Upload.PlainError message).

(** The question/answer pairs of a history, two turns at a time. *)
Fixpoint pairsOf (history : list ConversationMessage)
  : list (ConversationMessage * ConversationMessage) :=
  match history with
  | question :: answer :: rest => (question, answer) :: pairsOf rest
  | _ => []
  end.

(** The markdown of the pair numbered [n]. *)
Definition block (n : nat) (question answer : ConversationMessage) : jsstring :=
  (lit "## Q" ++ ofNumber (N.of_nat n) ++ lit ": " ++ content question ++ lit "

")
  ++ (lit "**Answer:**

" ++ content answer ++ lit "

")
  ++ lit "---

".

Fixpoint blocks (n : nat)
    (pairs : list (ConversationMessage * ConversationMessage)) : jsstring :=
  match pairs with
  | [] => []
  | (question, answer) :: rest => block n question answer ++ blocks (S n) rest
  end.

(** Title, metadata block and rule. *)
Definition header (env : Env) (session : DocumentSession) : jsstring :=
  lit "# Document Q&A Notes

" ++ lit "**Document:** " ++ filename session ++ lit "
" ++ lit "**Date:** " ++ toLocaleString env (uploadedAt session) ++ lit "

" ++ lit "---

".

End Spec.

(** ** Sequences of chat requests on one session *)

(** The requests of [calls] (each with the surroundings it runs in and its
    question) handled one after the other for the session [sessionId]. *)
Fixpoint chatSequence (sessionId : jsstring) (calls : list (Env * jsstring))
    (documentSessions : Sessions) : list Response * Sessions :=
  match calls with
  | [] => ([], documentSessions)
  | (env, question) :: rest =>
      let '(r, documentSessions) :=
        chatWithDocument env
          {| req_sessionId := sessionId; req_question := question |}
          documentSessions in
      let '(rs, documentSessions) :=
        chatSequence sessionId rest documentSessions in
      (r :: rs, documentSessions)
  end.

(** The question and answer of a successful chat response. *)
Definition exchangeOf (call : Env * jsstring) (r : Response)
  : option (jsstring * jsstring) :=
  match body r with
  | ChatResponse answer _ _ =>
      if status r =? 200 then Some (call.2, answer) else None
  | _ => None
  end.

(** The exchanges of the successful calls of a sequence, in order. *)
Fixpoint successes (calls : list (Env * jsstring)) (rs : list Response)
  : list (jsstring * jsstring) :=
  match calls, rs with
  | call :: calls', r :: rs' =>
      match exchangeOf call r with
      | Some exchange => exchange :: successes calls' rs'
      | None => successes calls' rs'
      end
  | _, _ => []
  end.

(** The response of a handler to a failed service call. *)
Definition serviceError (message : jsstring) : Response :=
  {| status := 500; body := ErrorResponse (lit "AI service error") message |}.

(** ** Sample data for the concrete instances below *)

(** A file system in which every path exists and reads as [content]. *)
Definition sampleWorld (content : jsstring) : DocumentProcessor.World :=
  {| DocumentProcessor.access := λ _, Returns ();
     DocumentProcessor.readFile := λ _, Returns [];
     DocumentProcessor.readFileUtf8 := λ _, Returns content;
     DocumentProcessor.pdfParse := λ _, Returns None;
     DocumentProcessor.extractRawText := λ _, Returns None |}.

Definition sampleSession : DocumentSession :=
  {| sessionId := lit "3f2b";
     filename := lit "report.final.pdf";
     filepath := lit "uploads/report_final_1700000000000.pdf";
     mimetype := lit "application/pdf";
     text := lit "Section 1. The sky is blue.";
     uploadedAt := 1700000000000;
     conversationHistory := [] |}.

Definition sampleSessions : Sessions := {[ lit "3f2b" := sampleSession ]}.

(** Surroundings in which the model answers [reply] to every request. *)
Definition answering (reply : outcome (option jsstring)) : Env :=
  {| OPENAI_API_KEY := Some (lit "sk-test");
     create := λ _, reply;
     toLocaleString := λ _, lit "11/14/2023, 10:13:20 PM" |}.

(** ** The other services of [utils/openaiService.ts]

    Each of them sends a system message and one user message.  The sampling
    parameters of the calls are not inputs of the endpoint's model: the
    endpoint is given per request. *)

Module TextServices.

Definition twoMessages (systemContent prompt : jsstring) : list ChatMessage :=
  [ {| msg_role := system; msg_content := systemContent |};
    {| msg_role := chat_user; msg_content := prompt |} ].

(** The tail shared by the three functions: the completion's content (the
    empty string when there is none) is the data; a thrown value fails the
    call with the message prefixed by [context]. *)
Definition complete (create : Completions) (messages : list ChatMessage)
    (context : jsstring) : AIServiceResult jsstring :=
  match create messages with
  | Returns content =>
      {| success := true;
         data := Some (match content with
                       | Some c => if truthy c then c else []
                       | None => []
                       end);
         error := None |}
  | Throws e =>
      OpenaiService.failure
        (context
         ++ match e with
            | ErrorObject message => message
            | OtherValue => lit "Unknown error occurred"
            end)
  end.

Definition analyzePrompt (documentText : jsstring) : jsstring :=
  lit "Analyze the following document and provide a brief overview of its structure and main topics:

" ++ documentText ++ lit "

Please provide:
1. Document type and structure
2. Main topics covered
3. Key sections identified".

(** [analyzeDocument(documentText)] *)
Definition analyzeDocument (OPENAI_API_KEY : option jsstring)
    (create : Completions) (documentText : jsstring)
  : AIServiceResult jsstring :=
  if negb (truthy documentText) || (length (trim documentText) =? 0)%nat then
    OpenaiService.failure (lit "Document text is empty")
  else if negb (truthy_opt OPENAI_API_KEY) then
    OpenaiService.failure (lit "OPENAI_API_KEY is not configured")
  else
    complete create
      (twoMessages
         (lit "You are a helpful AI assistant that analyzes documents and provides structured insights.")
         (analyzePrompt documentText))
      (lit "Failed to analyze document: ").

Definition summaryPrompt (documentText : jsstring) : jsstring :=
  lit "Please provide a concise summary of the following document. Include:
1. Main purpose or objective
2. Key points (3-5 bullet points)
3. Important conclusions or takeaways

Document:
" ++ documentText ++ lit "

Summary:".

(** [generateSummary(documentText)] *)
Definition generateSummary (OPENAI_API_KEY : option jsstring)
    (create : Completions) (documentText : jsstring)
  : AIServiceResult jsstring :=
  if negb (truthy documentText) || (length (trim documentText) =? 0)%nat then
    OpenaiService.failure (lit "Document text is empty")
  else if negb (truthy_opt OPENAI_API_KEY) then
    OpenaiService.failure (lit "OPENAI_API_KEY is not configured")
  else
    complete create
      (twoMessages
         (lit "You are a helpful AI assistant that creates clear and concise document summaries.")
         (summaryPrompt documentText))
      (lit "Failed to generate summary: ").

Definition simplifyPrompt (text documentText : jsstring) : jsstring :=
  lit "You are helping users understand complex documents. Please simplify and explain the following text section in plain, easy-to-understand language.

FULL DOCUMENT CONTEXT:
" ++ documentText ++ lit "

COMPLEX TEXT TO SIMPLIFY:
" ++ text ++ lit "

INSTRUCTIONS:
1. Explain in simple terms that anyone can understand
2. Break down technical jargon or complex concepts
3. Use analogies or examples if helpful
4. Keep the explanation concise but complete
5. Maintain accuracy while simplifying

Simplified Explanation:".

(** [simplifyText(text, documentText)] *)
Definition simplifyText (OPENAI_API_KEY : option jsstring)
    (create : Completions) (text documentText : jsstring)
  : AIServiceResult jsstring :=
  if negb (truthy text) || (length (trim text) =? 0)%nat then
    OpenaiService.failure (lit "Text to simplify cannot be empty")
  else if negb (truthy_opt OPENAI_API_KEY) then
    OpenaiService.failure (lit "OPENAI_API_KEY is not configured")
  else
    complete create
      (twoMessages
         (lit "You are a helpful AI assistant that explains complex text in simple, easy-to-understand language.")
         (simplifyPrompt text documentText))
      (lit "Failed to simplify text: ").

End TextServices.

Import TextServices.

(** ** The other request handlers of [controllers/document.controller.ts] *)

Module Handlers.

(** The bodies of all six routes: those of upload, chat, export and of
    every error, and the three that only the handlers below send. *)
Inductive AnyBody :=
  | CoreBody (b : Body)
  | SummarizeResponse (summary : jsstring)
  | SimplifyResponse (simplified : jsstring)
  | MessageResponse (message : jsstring).

Record Reply := {
  reply_status : N;
  reply_body : AnyBody
}.

Definition reply (r : Response) : Reply :=
  {| reply_status := status r; reply_body := CoreBody (body r) |}.

Definition errorReply (code : N) (error message : jsstring) : Reply :=
  reply {| status := code; body := ErrorResponse error message |}.

(** [result.error || fallback] *)
Definition errorOr (error : option jsstring) (fallback : jsstring) : jsstring :=
  match error with
  | Some e => if truthy e then e else fallback
  | None => fallback
  end.

(** [!result.success || !result.data] for a service whose data is a
    string: the empty string is falsy. *)
Definition unusable (result : AIServiceResult jsstring) : bool :=
  negb (success result) || negb (truthy_opt (data result)).

(** [summarizeDocument] *)
Definition summarizeDocument (env : Env) (sessionId : jsstring)
    (documentSessions : Sessions) : Reply * Sessions :=
  if negb (truthy sessionId) then
    (errorReply 400 (lit "Invalid request") (lit "sessionId is required"),
     documentSessions)
  else
    match documentSessions !! sessionId with
    | None => (reply sessionNotFound, documentSessions)
    | Some session =>
        let result :=
          generateSummary (OPENAI_API_KEY env) (create env) (text session) in
        if unusable result then
          (errorReply 500 (lit "AI service error")
             (errorOr (error result) (lit "Failed to generate summary")),
           documentSessions)
        else
          ({| reply_status := 200;
              reply_body := SummarizeResponse (default [] (data result)) |},
           documentSessions)
    end.

(** [simplifyTextSection] *)
Definition simplifyTextSection (env : Env) (sessionId text_ : jsstring)
    (documentSessions : Sessions) : Reply * Sessions :=
  if negb (truthy sessionId) || negb (truthy text_) then
    (errorReply 400 (lit "Invalid request")
       (lit "sessionId and text are required"),
     documentSessions)
  else
    match documentSessions !! sessionId with
    | None => (reply sessionNotFound, documentSessions)
    | Some session =>
        let result :=
          simplifyText (OPENAI_API_KEY env) (create env) text_ (text session) in
        if unusable result then
          (errorReply 500 (lit "AI service error")
             (errorOr (error result) (lit "Failed to simplify text")),
           documentSessions)
        else
          ({| reply_status := 200;
              reply_body := SimplifyResponse (default [] (data result)) |},
           documentSessions)
    end.

(** [deleteDocument]; [unlink] is what [fs.unlink(session.filepath)] does.
    Its failure is logged and otherwise ignored. *)
Definition deleteDocument (unlink : jsstring → outcome unit)
    (fileId : jsstring) (documentSessions : Sessions) : Reply * Sessions :=
  if negb (truthy fileId) then
    (errorReply 400 (lit "Invalid request") (lit "fileId is required"),
     documentSessions)
  else
    match documentSessions !! fileId with
    | None =>
        (errorReply 404 (lit "Document not found")
           (lit "Invalid fileId or document already deleted"),
         documentSessions)
    | Some session =>
        let _ := unlink (filepath session) in
        ({| reply_status := 200;
            reply_body := MessageResponse (lit "Document deleted successfully") |},
         delete fileId documentSessions)
    end.

(** [getActiveSessions] *)
Definition getActiveSessions (documentSessions : Sessions) : nat :=
  size documentSessions.

(** ** The routes of [routes/document.routes.ts] *)

(** A request to one of the six routes, with the surroundings in which it
    is handled. *)
Inductive Request :=
  | PostUpload (w : DocumentProcessor.World) (uuid : jsstring) (now : N)
      (file : option Upload.IncomingFile)
  | PostChat (env : Env) (req : ChatRequest)
  | PostSummarize (env : Env) (sessionId : jsstring)
  | PostSimplify (env : Env) (sessionId text_ : jsstring)
  | GetExport (env : Env) (sessionId : jsstring)
  | DeleteDocument (unlink : jsstring → outcome unit) (fileId : jsstring).

Definition lift (out : Response * Sessions) : Reply * Sessions :=
  (reply out.1, out.2).

(** The router.  A multipart request without a file part passes the
    upload middleware untouched and reaches the controller without
    [req.file]. *)
Definition route (request : Request) (documentSessions : Sessions)
  : Reply * Sessions :=
  match request with
  | PostUpload w uuid now (Some file) =>
      lift (postUpload w uuid now file documentSessions)
  | PostUpload w uuid now None =>
      lift (uploadDocument w uuid now None documentSessions)
  | PostChat env req => lift (chatWithDocument env req documentSessions)
  | PostSummarize env sessionId =>
      summarizeDocument env sessionId documentSessions
  | PostSimplify env sessionId text_ =>
      simplifyTextSection env sessionId text_ documentSessions
  | GetExport env sessionId => lift (exportNotes env sessionId documentSessions)
  | DeleteDocument unlink fileId =>
      deleteDocument unlink fileId documentSessions
  end.

(** The requests of a list handled one after the other. *)
Fixpoint serve (requests : list Request) (documentSessions : Sessions)
  : list Reply * Sessions :=
  match requests with
  | [] => ([], documentSessions)
  | request :: rest =>
      let '(r, documentSessions) := route request documentSessions in
      let '(rs, documentSessions) := serve rest documentSessions in
      (r :: rs, documentSessions)
  end.

End Handlers.

Import Handlers.

(** ** Client-side validation ([components/FileUpload.tsx]) *)

Module FileUpload.

Definition MAX_FILE_SIZE : N := 10 * 1024 * 1024.

Definition ACCEPTED_TYPES : list jsstring :=
  [ lit ".pdf"; lit ".docx"; lit ".txt" ].

Definition ACCEPTED_MIME_TYPES : list jsstring :=
  [ lit "application/pdf";
    lit "application/vnd.openxmlformats-officedocument.wordprocessingml.document";
    lit "text/plain" ].

(** The browser's [File], as far as it is validated. *)
Record File := {
  name : jsstring;
  type : jsstring;
  size : N
}.

(** [name.split(".").pop()]: what follows the last dot, or the whole name
    when it has no dot.  [acc] collects the current segment. *)
Fixpoint lastSegment (acc s : jsstring) : jsstring :=
  match s with
  | [] => acc
  | c :: r =>
      if c =? NodePath.CHAR_DOT then lastSegment [] r
      else lastSegment (acc ++ [c]) r
  end.

(** The toast that a refusal shows, by its title. *)
Inductive Refusal := FileTooLarge | InvalidExtension | InvalidMimeType.

(** [validateFile(file)]: [None] for [true], the refusal shown for
    [false]. *)
Definition validateFile (file : File) : option Refusal :=
  if MAX_FILE_SIZE <? size file then Some FileTooLarge
  else
    let fileExtension := lit "." ++ toLowerCase (lastSegment [] (name file)) in
    if negb (bool_decide (fileExtension ∈ ACCEPTED_TYPES)) then
      Some InvalidExtension
    else if negb (bool_decide (type file ∈ ACCEPTED_MIME_TYPES)) then
      Some InvalidMimeType
    else None.

End FileUpload.

(** ** Vocabulary of the further properties *)

(** A service result is populated on exactly one side: data without an
    error when it succeeded, an error without data when it failed. *)
Definition populated {T} (r : AIServiceResult T) : Prop :=
  (success r = true ∧ is_Some (data r) ∧ error r = None)
  ∨ (success r = false ∧ data r = None ∧ ∃ message, error r = Some message ∧ message ≠ []).

(** The literal [pat] occurs in [s], ignoring case, at position [i]. *)
Definition occurs_ci_at (pat s : jsstring) (i : nat) : Prop :=
  startsWith_ci pat (drop i s) = true.

(** A label between brackets. *)
Definition bracketed (label : jsstring) : jsstring :=
  LBRACKET :: label ++ [RBRACKET].

(** A response in the format that the system prompt of [askQuestion] asks
    for: the answer after [ANSWER:], then on a new line the bracketed labels
    after [CITATIONS:]. *)
Definition formatted (answer : jsstring) (labels : list jsstring) : jsstring :=
  lit "ANSWER: " ++ answer ++ lit "
CITATIONS: " ++ join (lit " ") (bracketed <$> labels).

(** A label as the parser returns them: not empty, trimmed, without
    bracket characters. *)
Definition cleanLabel (label : jsstring) : Prop :=
  label ≠ [] ∧ trim label = label ∧ (LBRACKET ∉ label) ∧ (RBRACKET ∉ label).

(** The session that a request names: the fresh identifier for an upload,
    the identifier it carries otherwise. *)
Definition target (request : Request) : jsstring :=
  match request with
  | PostUpload _ uuid _ _ => uuid
  | PostChat _ req => req_sessionId req
  | PostSummarize _ sessionId => sessionId
  | PostSimplify _ sessionId _ => sessionId
  | GetExport _ sessionId => sessionId
  | DeleteDocument _ fileId => fileId
  end.

(** The requests that can remove or replace a stored session. *)
Definition replaces (request : Request) : bool :=
  match request with
  | PostUpload _ _ _ _ | DeleteDocument _ _ => true
  | _ => false
  end.

(** The role that the position [i] of a history of paired turns holds. *)
Definition roleAt (i : nat) : Role := if Nat.even i then user else model.

(** What every stored session satisfies: it is stored under its own
    identifier, its text is not blank, and its history is made of pairs, a
    [user] turn followed by a [model] turn. *)
Definition sessionInvariant (id : jsstring) (session : DocumentSession) : Prop :=
  sessionId session = id
  ∧ trim (text session) ≠ []
  ∧ Nat.Even (length (conversationHistory session))
  ∧ ∀ i turn, conversationHistory session !! i = Some turn →
              role turn = roleAt i.

(** The role of the message at position [i] of a prompt: the system
    message first, then user and assistant messages in turn. *)
Definition promptRoleAt (i : nat) : ChatRole :=
  match i with
  | O => system
  | S _ => if Nat.odd i then chat_user else assistant
  end.

(** The turns of an exchange as a question/answer pair. *)
Definition exchangePair (exchange : jsstring * jsstring)
  : ConversationMessage * ConversationMessage :=
  ({| role := user; content := exchange.1 |},
   {| role := model; content := exchange.2 |}).

(** A prompt whose messages hold the roles in turn. *)
Definition alternatingPrompt (messages : list ChatMessage) : Prop :=
  ∀ i message, messages !! i = Some message → msg_role message = promptRoleAt i.

(** The characters of a stored file name: ASCII letters, digits, hyphen,
    underscore and dot. *)
Definition safeInName (c : char) : bool :=
  Upload.keptInName c || (c =? NodePath.CHAR_DOT).

(** A name with a stem: its last dot is not its first character. *)
Definition hasStem (name : jsstring) : Prop :=
  ∃ stem seg,
    stem ≠ [] ∧ name = stem ++ NodePath.CHAR_DOT :: seg
    ∧ NodePath.CHAR_DOT ∉ seg.

(** A character that is neither a dot nor a slash. *)
Definition plainChar (c : char) : Prop :=
  c ≠ NodePath.CHAR_DOT ∧ c ≠ NodePath.CHAR_FORWARD_SLASH.

(** * Properties *)

(** ** Trimming *)

Section Trimming.

Implicit Types s w : jsstring.

Lemma trimStart_split s :
  ∃ w, s = w ++ trimStart s ∧ blankString w.
Proof.
  induction s as [|c r [w [Hs Hw]]]; simpl.
  - exists []. split; [done | constructor].
  - destruct (isWhiteSpace c) eqn:Hc.
    + exists (c :: w). split; [simpl; congruence | by constructor].
    + exists []. split; [done | constructor].
Qed.

Lemma trimStart_head s c :
  head (trimStart s) = Some c → isWhiteSpace c = false.
Proof.
  induction s as [|d r IH]; simpl; [done |].
  destruct (isWhiteSpace d) eqn:Hd; [done |].
  simpl. by intros [= <-].
Qed.

Lemma trimStart_blank s : blankString s → trimStart s = [].
Proof. induction 1 as [|c r Hc _ IH]; simpl; [done | by rewrite Hc]. Qed.

Lemma trimStart_nil s : trimStart s = [] → blankString s.
Proof.
  destruct (trimStart_split s) as [w [Hs Hw]]. intros E.
  rewrite E, app_nil_r in Hs. by subst.
Qed.

Lemma trimStart_app_blank w s : blankString w → trimStart (w ++ s) = trimStart s.
Proof. induction 1 as [|c r Hc _ IH]; simpl; [done | by rewrite Hc]. Qed.

Lemma trimStart_fixed s :
  (∀ c, head s = Some c → isWhiteSpace c = false) → trimStart s = s.
Proof.
  destruct s as [|c r]; simpl; [done |].
  intros H. by rewrite (H c eq_refl).
Qed.

Lemma trimStart_idem s : trimStart (trimStart s) = trimStart s.
Proof. apply trimStart_fixed, trimStart_head. Qed.

Lemma blankString_reverse s : blankString (reverse s) ↔ blankString s.
Proof.
  unfold blankString. rewrite !Forall_forall.
  by setoid_rewrite elem_of_reverse.
Qed.

Lemma trimEnd_split s :
  ∃ w, s = trimEnd s ++ w ∧ blankString w.
Proof.
  unfold trimEnd. destruct (trimStart_split (reverse s)) as [w [Hs Hw]].
  exists (reverse w). split; [| by apply blankString_reverse].
  rewrite <- reverse_app, <- Hs. by rewrite reverse_involutive.
Qed.

Lemma trimEnd_last s c :
  last (trimEnd s) = Some c → isWhiteSpace c = false.
Proof. unfold trimEnd. rewrite last_reverse. apply trimStart_head. Qed.

Lemma trimEnd_nil s : trimEnd s = [] ↔ blankString s.
Proof.
  unfold trimEnd. split.
  - intros E. apply (f_equal reverse) in E. rewrite reverse_involutive in E.
    by apply blankString_reverse, trimStart_nil.
  - intros H. apply blankString_reverse in H. by rewrite (trimStart_blank _ H).
Qed.

Lemma trimEnd_head s c :
  head (trimEnd s) = Some c → head s = Some c.
Proof.
  destruct (trimEnd_split s) as [w [Hs _]]. intros H.
  rewrite Hs. destruct (trimEnd s); [done | by simpl in *].
Qed.

Lemma trimEnd_app_blank s w : blankString w → trimEnd (s ++ w) = trimEnd s.
Proof.
  intros H. unfold trimEnd. rewrite reverse_app.
  by rewrite trimStart_app_blank; [| apply blankString_reverse].
Qed.

Lemma trimEnd_fixed s :
  (∀ c, last s = Some c → isWhiteSpace c = false) → trimEnd s = s.
Proof.
  intros H. unfold trimEnd.
  rewrite trimStart_fixed; [apply reverse_involutive |].
  intros c Hc. apply H. by rewrite <- (reverse_involutive s), last_reverse.
Qed.

(** [trim] yields the empty string exactly on the strings made of
    white space only. *)
Lemma trim_nil s : trim s = [] ↔ blankString s.
Proof.
  unfold trim. rewrite trimEnd_nil. split.
  - intros H. apply trimStart_nil. destruct (trimStart s) as [|c r] eqn:E; [done |].
    assert (isWhiteSpace c = false) as Hc by (apply (trimStart_head s); by rewrite E).
    inversion H; congruence.
  - intros H. rewrite (trimStart_blank _ H). constructor.
Qed.

(** A trimmed string has white space at neither end. *)
Lemma trim_head s c : head (trim s) = Some c → isWhiteSpace c = false.
Proof. intros H. by apply (trimStart_head s), trimEnd_head. Qed.

Lemma trim_last s c : last (trim s) = Some c → isWhiteSpace c = false.
Proof. apply trimEnd_last. Qed.

Lemma trim_idem s : trim (trim s) = trim s.
Proof.
  unfold trim at 1. rewrite trimStart_fixed by apply trim_head.
  apply trimEnd_fixed, trim_last.
Qed.

Lemma trim_app_blank_l w s : blankString w → trim (w ++ s) = trim s.
Proof. intros H. unfold trim. by rewrite trimStart_app_blank. Qed.

Lemma trim_trimStart s : trim (trimStart s) = trim s.
Proof. unfold trim. by rewrite trimStart_idem. Qed.

(** A string is its trimmed part between two runs of white space. *)
Lemma trim_split s :
  ∃ w1 w2, s = w1 ++ trim s ++ w2 ∧ blankString w1 ∧ blankString w2.
Proof.
  destruct (trimStart_split s) as [w1 [H1 Hw1]].
  destruct (trimEnd_split (trimStart s)) as [w2 [H2 Hw2]].
  exists w1, w2. unfold trim. by rewrite <- H2.
Qed.

Lemma length_zero_nil `{EqDecision A} (l : list A) :
  (length l =? 0)%nat = bool_decide (l = []).
Proof. by destruct l. Qed.

Lemma truthy_nil s : truthy s = negb (bool_decide (s = [])).
Proof. by destruct s. Qed.

(** The guard [!t || t.trim().length === 0]. *)
Lemma blank_guard s :
  negb (truthy s) || (length (trim s) =? 0)%nat = bool_decide (trim s = []).
Proof.
  rewrite length_zero_nil. destruct s as [|c r]; [done |]. done.
Qed.

End Trimming.

(** ** Text extraction *)

Section Extraction.

Import DocumentProcessor.

Variable w : World.

Lemma blank_false text :
  blank text = false → ∃ t, text = Some t ∧ trim t ≠ [].
Proof.
  destruct text as [t|]; [| done]. unfold blank. rewrite blank_guard.
  intros H%bool_decide_eq_false. by exists t.
Qed.

Lemma rethrow_throws prefix e t : rethrow prefix e ≠ Returns t.
Proof. by destruct e. Qed.

Lemma extractTextFromPDF_returns filePath t :
  extractTextFromPDF w filePath = Returns t → trim t ≠ [].
Proof.
  unfold extractTextFromPDF.
  destruct (readFile w filePath) as [buf|e]; [| by intros H%rethrow_throws].
  destruct (pdfParse w buf) as [o|e]; [| by intros H%rethrow_throws].
  destruct (blank o) eqn:Hb; [by intros H%rethrow_throws |].
  destruct (blank_false _ Hb) as [t' [-> Ht]]. simpl. by intros [= <-].
Qed.

Lemma extractTextFromDOCX_returns filePath t :
  extractTextFromDOCX w filePath = Returns t → trim t ≠ [].
Proof.
  unfold extractTextFromDOCX.
  destruct (extractRawText w filePath) as [o|e]; [| by intros H%rethrow_throws].
  destruct (blank o) eqn:Hb; [by intros H%rethrow_throws |].
  destruct (blank_false _ Hb) as [t' [-> Ht]]. simpl. by intros [= <-].
Qed.

Lemma extractTextFromTXT_returns filePath t :
  extractTextFromTXT w filePath = Returns t → trim t ≠ [].
Proof.
  unfold extractTextFromTXT.
  destruct (readFileUtf8 w filePath) as [o|e]; [| by intros H%rethrow_throws].
  destruct (blank (Some o)) eqn:Hb; [by intros H%rethrow_throws |].
  destruct (blank_false _ Hb) as [t' [[= <-] Ht]]. by intros [= <-].
Qed.

(** What [processDocument] returns, by the outcome of the extractor it
    selected. *)
Lemma processDocument_cases filePath mimetype :
  let r := processDocument w filePath mimetype in
  (∃ t, trim t ≠ [] ∧
        r = {| pd_success := true; pd_text := trim t; pd_error := None |})
  ∨ (∃ message, r = failed message).
Proof.
  unfold processDocument.
  destruct (access w filePath); [| right; by eexists].
  repeat case_bool_decide.
  - destruct (extractTextFromPDF w filePath) as [t|[m|]] eqn:E;
      [left; exists t; split; [by eapply extractTextFromPDF_returns | done]
      | right; by eexists ..].
  - destruct (extractTextFromDOCX w filePath) as [t|[m|]] eqn:E;
      [left; exists t; split; [by eapply extractTextFromDOCX_returns | done]
      | right; by eexists ..].
  - destruct (extractTextFromTXT w filePath) as [t|[m|]] eqn:E;
      [left; exists t; split; [by eapply extractTextFromTXT_returns | done]
      | right; by eexists ..].
  - right; by eexists.
Qed.

(** C4.  Every result of [processDocument] has one of two shapes, whatever
    the path, the declared type and the behaviour of the file system and
    the decoders: either [success] is [true], [text] is non-empty and
    trimmed (trimming it again changes nothing, and neither its first nor
    its last character is white space) and there is no [error]; or
    [success] is [false], [text] is the empty string and [error] is set. *)
Theorem extraction_result_shape filePath mimetype :
  let r := processDocument w filePath mimetype in
  (pd_success r = true
   ∧ pd_text r ≠ []
   ∧ trim (pd_text r) = pd_text r
   ∧ default false (isWhiteSpace <$> head (pd_text r)) = false
   ∧ default false (isWhiteSpace <$> last (pd_text r)) = false
   ∧ pd_error r = None)
  ∨ (pd_success r = false ∧ pd_text r = [] ∧ is_Some (pd_error r)).
Proof.
  intros r. subst r.
  destruct (processDocument_cases filePath mimetype) as [[t [Ht ->]]|[m ->]].
  - left. simpl. repeat split; [done | apply trim_idem | | ].
    + destruct (head (trim t)) as [c|] eqn:E; [| done]. simpl.
      by apply (trim_head t).
    + destruct (last (trim t)) as [c|] eqn:E; [| done]. simpl.
      by apply (trim_last t).
  - right. simpl. by repeat split.
Qed.

(** C7.  For a readable plain-text file whose content has at least one
    character that is not white space (in particular any non-empty text
    of visible characters), [processDocument] succeeds with the content
    trimmed; for a content of white space only (the empty file included)
    it fails, with empty [text] and the "TXT file is empty" error. *)
Theorem txt_round_trip filePath content :
  access w filePath = Returns () →
  readFileUtf8 w filePath = Returns content →
  let r := processDocument w filePath (lit "text/plain") in
  (Exists (λ c, isWhiteSpace c = false) content →
   r = {| pd_success := true; pd_text := trim content; pd_error := None |})
  ∧ (Forall (λ c, isWhiteSpace c = true) content →
     r = {| pd_success := false; pd_text := [];
            pd_error := Some (lit "Failed to read TXT file: TXT file is empty") |}).
Proof.
  intros Hacc Hread r. subst r. unfold processDocument. rewrite Hacc.
  assert (bool_decide (lit "text/plain" = lit "application/pdf") = false)
    as -> by by vm_compute.
  assert (bool_decide
            (lit "text/plain" =
             lit "application/vnd.openxmlformats-officedocument.wordprocessingml.document")
          = false) as -> by by vm_compute.
  rewrite bool_decide_eq_true_2 by done.
  unfold extractTextFromTXT. rewrite Hread. unfold blank. rewrite blank_guard.
  split.
  - intros Hex. rewrite bool_decide_eq_false_2; [done |].
    intros Hb%trim_nil. apply Exists_exists in Hex as [c [Hin Hc]].
    unfold blankString in Hb. rewrite Forall_forall in Hb.
    specialize (Hb c Hin). congruence.
  - intros Hall. rewrite bool_decide_eq_true_2 by by apply trim_nil.
    done.
Qed.

End Extraction.

Lemma txt_round_trip_witness :
  DocumentProcessor.processDocument (sampleWorld (lit "  Hello, world.
")) (lit "uploads/notes_1.txt") (lit "text/plain")
  = {| pd_success := true; pd_text := lit "Hello, world."; pd_error := None |}.
Proof.
  apply (txt_round_trip (sampleWorld (lit "  Hello, world.
")) (lit "uploads/notes_1.txt") (lit "  Hello, world.
") eq_refl eq_refl).
  apply Exists_cons_tl, Exists_cons_tl, Exists_cons_hd. reflexivity.
Defined.

(** ** The answer formatter *)

Section Markers.

Implicit Types pat s w : jsstring.

Lemma after_ci_index pat s :
  after_ci pat s = (λ i, drop (i + length pat) s) <$> Spec.index_ci pat s.
Proof.
  induction s as [|c r IH]; simpl.
  - by destruct (startsWith_ci pat []).
  - destruct (startsWith_ci pat (c :: r)); [done |].
    rewrite IH. by destruct (Spec.index_ci pat r).
Qed.

Lemma lazy_until_ci_index pat s :
  lazy_until_ci pat s = take (default (length s) (Spec.index_ci pat s)) s.
Proof.
  induction s as [|c r IH]; simpl.
  - by destruct (startsWith_ci pat []).
  - destruct (startsWith_ci pat (c :: r)); [done |].
    rewrite IH. by destruct (Spec.index_ci pat r).
Qed.

(** White space lies outside the printable ASCII range. *)
Lemma isWhiteSpace_range c :
  isWhiteSpace c = true → c < 0x21 ∨ 0xa0 ≤ c.
Proof.
  unfold isWhiteSpace. intros H.
  repeat (apply orb_prop in H as [H|H]);
    try apply andb_prop in H as [H1 H2];
    try apply N.eqb_eq in H; try apply N.leb_le in H1; lia.
Qed.

(** No white-space character folds to a capital C. *)
Lemma whitespace_not_C c :
  isWhiteSpace c = true → (canonicalize 0x43 =? canonicalize c) = false.
Proof.
  intros H%isWhiteSpace_range. change (canonicalize 0x43) with 0x43.
  unfold canonicalize. apply N.eqb_neq.
  destruct ((0x61 <=? c) && (c <=? 0x7a)) eqn:E; [| lia].
  apply andb_prop in E as [E1%N.leb_le E2%N.leb_le]. lia.
Qed.

Lemma startsWith_CITATIONS_whitespace c s :
  isWhiteSpace c = true → startsWith_ci CITATIONS (c :: s) = false.
Proof.
  intros H. change CITATIONS with (0x43 :: lit "ITATIONS:").
  cbn [startsWith_ci]. by rewrite (whitespace_not_C c H).
Qed.

(** The lazy group walks through leading white space. *)
Lemma lazy_until_CITATIONS_blank w s :
  blankString w →
  lazy_until_ci CITATIONS (w ++ s) = w ++ lazy_until_ci CITATIONS s.
Proof.
  induction 1 as [|c r Hc _ IH]; [done |].
  change ((c :: r) ++ s) with (c :: (r ++ s)).
  cbn [lazy_until_ci]. rewrite (startsWith_CITATIONS_whitespace c _ Hc).
  simpl. f_equal. exact IH.
Qed.

End Markers.

Section Brackets.

Implicit Types s w r m : jsstring.

Lemma whitespace_not_bracket c :
  isWhiteSpace c = true → (c =? LBRACKET) = false ∧ (c =? RBRACKET) = false.
Proof.
  intros H%isWhiteSpace_range. unfold LBRACKET, RBRACKET.
  split; apply N.eqb_neq; lia.
Qed.

Lemma bracket_here_whitespace c s :
  isWhiteSpace c = true → bracket_here (c :: s) = None.
Proof. intros [H _]%whitespace_not_bracket. simpl. by rewrite H. Qed.

Lemma span_not_close_blank w : blankString w → span_not_close w = (w, []).
Proof.
  induction 1 as [|c r Hc _ IH]; [done |]. simpl.
  destruct (whitespace_not_bracket c Hc) as [_ ->]. by rewrite IH.
Qed.

Lemma span_not_close_app_blank r w :
  blankString w →
  span_not_close (r ++ w) =
    match span_not_close r with
    | (run, []) => (run ++ w, [])
    | (run, rest) => (run, rest ++ w)
    end.
Proof.
  intros Hw. induction r as [|c r IH]; simpl.
  - by rewrite span_not_close_blank.
  - destruct (c =? RBRACKET); [done |]. rewrite IH.
    destruct (span_not_close r) as [run [|d rest]]; done.
Qed.

Lemma bracket_here_app_blank s w :
  blankString w → bracket_here (s ++ w) = bracket_here s.
Proof.
  intros Hw. destruct s as [|c r]; simpl.
  - destruct Hw as [|d w Hd _]; [done |]. by apply bracket_here_whitespace.
  - destruct (c =? LBRACKET); [| done].
    rewrite span_not_close_app_blank by done.
    destruct (span_not_close r) as [[|x run] [|d rest]]; simpl; try done.
    by destruct w.
Qed.

Lemma bracket_scan_blank skip w : blankString w → bracket_scan skip w = [].
Proof.
  intros Hw. revert skip. induction Hw as [|c r Hc _ IH]; intros skip; [done |].
  cbn [bracket_scan]. destruct skip; [| apply IH].
  rewrite bracket_here_whitespace by done. apply IH.
Qed.

Lemma bracket_scan_app_blank skip s w :
  blankString w → bracket_scan skip (s ++ w) = bracket_scan skip s.
Proof.
  intros Hw. revert skip. induction s as [|c r IH]; intros skip.
  - by apply bracket_scan_blank.
  - change ((c :: r) ++ w) with (c :: (r ++ w)). cbn [bracket_scan].
    destruct skip; [| apply IH].
    change (c :: (r ++ w)) with ((c :: r) ++ w).
    rewrite bracket_here_app_blank by done.
    destruct (bracket_here (c :: r)); by rewrite IH.
Qed.

Lemma match_brackets_blank_app w s :
  blankString w → match_brackets (w ++ s) = match_brackets s.
Proof.
  unfold match_brackets. induction 1 as [|c r Hc _ IH]; [done |].
  change ((c :: r) ++ s) with (c :: (r ++ s)). cbn [bracket_scan].
  by rewrite bracket_here_whitespace.
Qed.

(** Trimming a text neither adds nor removes a bracketed substring. *)
Lemma match_brackets_trim s : match_brackets (trim s) = match_brackets s.
Proof.
  destruct (trim_split s) as [w1 [w2 [Hs [H1 H2]]]].
  rewrite Hs at 2. rewrite match_brackets_blank_app by done.
  unfold match_brackets. by rewrite bracket_scan_app_blank.
Qed.

Lemma match_brackets_trimStart s :
  match_brackets (trimStart s) = match_brackets s.
Proof.
  destruct (trimStart_split s) as [w [Hs Hw]].
  rewrite Hs at 2. by rewrite match_brackets_blank_app.
Qed.

(** Every match is an opening bracket, a non-empty run free of closing
    brackets, and a closing bracket. *)
Lemma span_not_close_run s run rest :
  span_not_close s = (run, rest) →
  s = run ++ rest ∧ (RBRACKET ∉ run) ∧ (rest = [] ∨ head rest = Some RBRACKET).
Proof.
  revert run rest. induction s as [|c r IH]; intros run rest; simpl.
  - intros [= <- <-]. split; [done |]. split; [apply not_elem_of_nil | by left].
  - destruct (c =? RBRACKET) eqn:E.
    + intros [= <- <-]. apply N.eqb_eq in E as ->.
      split; [done |]. split; [apply not_elem_of_nil | by right].
    + destruct (span_not_close r) as [run' rest'].
      intros [= <- <-]. destruct (IH _ _ eq_refl) as (-> & Hrun & Hrest).
      split; [done |]. split; [| done].
      apply N.eqb_neq in E. rewrite elem_of_cons. intros [?|?]; congruence || done.
Qed.

Lemma bracket_here_shape s m :
  bracket_here s = Some m →
  ∃ run, m = LBRACKET :: run ++ [RBRACKET] ∧ run ≠ [] ∧ (RBRACKET ∉ run)
         ∧ ∃ rest, s = m ++ rest.
Proof.
  destruct s as [|c r]; simpl; [done |].
  destruct (c =? LBRACKET) eqn:E; [| done]. apply N.eqb_eq in E as ->.
  destruct (span_not_close r) as [[|x run] [|d rest]] eqn:Hs; try done.
  intros [= <-]. destruct (span_not_close_run _ _ _ Hs) as (-> & Hrun & [?|Hd]);
    [done |]. simpl in Hd. injection Hd as ->.
  exists (x :: run). split; [done |]. split; [done |]. split; [done |].
  exists rest. simpl. by rewrite <- app_assoc.
Qed.

Lemma bracket_scan_shape skip s m :
  m ∈ bracket_scan skip s →
  ∃ run, m = LBRACKET :: run ++ [RBRACKET] ∧ run ≠ [] ∧ RBRACKET ∉ run.
Proof.
  revert skip. induction s as [|c r IH]; intros skip; cbn [bracket_scan].
  - by intros ?%elem_of_nil.
  - destruct skip; [| apply IH].
    destruct (bracket_here (c :: r)) as [m'|] eqn:E; [| apply IH].
    intros [->|H]%elem_of_cons; [| by eapply IH].
    destruct (bracket_here_shape _ _ E) as (run & ? & ? & ? & _). by exists run.
Qed.

End Brackets.

Section Citations.

Implicit Types acc ms l : list jsstring.

Lemma pushCitation_spec acc m :
  pushCitation acc m =
    if decide (Spec.label m ≠ [] ∧ Spec.label m ∉ acc)
    then acc ++ [Spec.label m] else acc.
Proof.
  unfold pushCitation, Spec.label. rewrite truthy_nil.
  repeat case_bool_decide; simpl; case_decide; tauto.
Qed.

Lemma filter_drop_seen acc x l :
  x ∈ acc →
  filter (λ c, c ∉ acc) (filter (λ y, y ≠ x) l) = filter (λ c, c ∉ acc) l.
Proof.
  intros Hx. rewrite list_filter_filter. apply list_filter_iff.
  intros c. split; [by intros [? ?] | intros H; split; [done | congruence]].
Qed.

(** The accumulating loop against the functional reading: the labels
    not yet seen, without the empty ones, first occurrences only. *)
Lemma forEachMatch_spec acc ms :
  forEachMatch acc ms =
    acc ++ filter (λ c, c ∉ acc)
             (Spec.first_occurrences
                (filter (λ c, c ≠ []) (Spec.label <$> ms))).
Proof.
  unfold forEachMatch. revert acc.
  induction ms as [|m ms IH]; intros acc.
  - cbn. by rewrite app_nil_r.
  - cbn [foldl]. rewrite IH, pushCitation_spec, fmap_cons, filter_cons.
    repeat case_decide; try tauto.
    + cbn [Spec.first_occurrences]. rewrite (filter_cons (λ c, c ∉ acc)).
      rewrite decide_True by tauto. rewrite <- app_assoc. cbn [app].
      do 2 f_equal. rewrite list_filter_filter. apply list_filter_iff.
      intros c. rewrite elem_of_app, list_elem_of_singleton. tauto.
    + cbn [Spec.first_occurrences]. rewrite (filter_cons (λ c, c ∉ acc)).
      assert (Spec.label m ∈ acc) as Hold by (apply dec_stable; tauto).
      rewrite decide_False by tauto. by rewrite filter_drop_seen.
Qed.

Lemma forEachMatch_labels s : forEachMatch [] (match_brackets s) = Spec.labels s.
Proof.
  rewrite forEachMatch_spec. simpl. unfold Spec.labels.
  induction (Spec.first_occurrences _) as [|x l IH]; [done |].
  rewrite filter_cons_True by apply not_elem_of_nil. by rewrite IH.
Qed.

End Citations.

Section Parsing.

Implicit Types raw : jsstring.

Lemma parse_answer raw :
  answer (parseResponse raw) = Spec.answer_between raw.
Proof.
  unfold parseResponse, answerMatch, Spec.answer_between. cbn [answer].
  rewrite after_ci_index.
  destruct (Spec.index_ci ANSWER raw) as [i|]; cbn [fmap option_fmap option_map];
    [| done].
  set (rest := drop (i + length ANSWER) raw).
  rewrite <- lazy_until_ci_index.
  destruct (trimStart_split rest) as [w [Hs Hw]].
  rewrite Hs at 2.
  by rewrite lazy_until_CITATIONS_blank, trim_app_blank_l.
Qed.

Lemma citationsText_brackets raw :
  match_brackets
    (match citationsMatch raw with Some g => trim g | None => [] end)
  = match_brackets (Spec.citations_section raw).
Proof.
  unfold citationsMatch, Spec.citations_section. rewrite after_ci_index.
  destruct (Spec.index_ci CITATIONS raw) as [i|]; cbn [fmap option_fmap option_map];
    [| done].
  by rewrite match_brackets_trim, match_brackets_trimStart.
Qed.

Lemma labels_of_brackets s1 s2 :
  match_brackets s1 = match_brackets s2 → Spec.labels s1 = Spec.labels s2.
Proof. unfold Spec.labels. by intros ->. Qed.

Lemma parse_citations raw :
  citations (parseResponse raw) = Spec.two_pass Spec.labels raw.
Proof.
  unfold Spec.two_pass. rewrite <- parse_answer.
  unfold parseResponse. cbn [citations answer].
  set (citationsText :=
         match citationsMatch raw with Some g => trim g | None => [] end).
  assert ((if truthy citationsText
           then forEachMatch [] (match_brackets citationsText)
           else []) = Spec.labels (Spec.citations_section raw)) as ->.
  { rewrite <- (labels_of_brackets _ _ (citationsText_brackets raw)).
    fold citationsText. rewrite <- forEachMatch_labels.
    by destruct citationsText. }
  rewrite length_zero_nil.
  case_bool_decide as E; [| done].
  by rewrite E, forEachMatch_labels.
Qed.

(** The deduplication keeps one copy of every label. *)
Lemma first_occurrences_elem (l : list jsstring) x :
  x ∈ Spec.first_occurrences l ↔ x ∈ l.
Proof.
  induction l as [|y l IH]; [done |]. cbn [Spec.first_occurrences].
  rewrite !elem_of_cons, list_elem_of_filter, IH.
  destruct (decide (x = y)); tauto.
Qed.


End Parsing.



(** C2.  The parsed answer is the text between the leftmost [ANSWER:]
    marker and the next [CITATIONS:] (both matched ignoring case) or the end
    of the string, trimmed; without an [ANSWER:] marker it is the whole raw
    output.  Parsing cannot fail: whenever the guards of [askQuestion] pass
    and the model returns [raw], the service result is a success carrying
    that answer. *)
Theorem answer_between_markers (raw : jsstring) :
  answer (parseResponse raw) = Spec.answer_between raw
  ∧ (Spec.index_ci ANSWER raw = None → answer (parseResponse raw) = raw)
  ∧ (∀ key create question documentText history,
       truthy_opt key = true →
       trim question ≠ [] →
       trim documentText ≠ [] →
       create (buildMessages question documentText history)
         = Returns (Some raw) →
       askQuestion key create question documentText history
         = {| success := true;
              data := Some (parseResponse raw);
              error := None |}).
Proof.
  split; [apply parse_answer |]. split.
  - intros H. rewrite parse_answer. unfold Spec.answer_between. by rewrite H.
  - intros key create question documentText history Hkey Hq Hd Hcreate.
    unfold askQuestion. rewrite !blank_guard.
    rewrite !bool_decide_eq_false_2 by done. rewrite Hkey. cbn [negb].
    rewrite Hcreate. by destruct raw.
Qed.

Lemma answer_between_markers_witness :
  Spec.index_ci ANSWER (lit "The answer is here [Exhibit A].") = None
  ∧ answer (parseResponse (lit "The answer is here [Exhibit A]."))
    = lit "The answer is here [Exhibit A]."
  ∧ askQuestion (Some (lit "sk-test"))
      (λ _, Returns (Some (lit "The answer is here [Exhibit A].")))
      (lit "Where?") (lit "Some document.") []
    = {| success := true;
         data := Some {| answer := lit "The answer is here [Exhibit A].";
                         citations := [ lit "Exhibit A" ] |};
         error := None |}.
Proof.
  destruct (answer_between_markers (lit "The answer is here [Exhibit A]."))
    as (_ & Habsent & Hask).
  split; [reflexivity |]. split; [apply Habsent; reflexivity |].
  apply (Hask (Some (lit "sk-test"))
           (λ _, Returns (Some (lit "The answer is here [Exhibit A].")))
           (lit "Where?") (lit "Some document.") []);
    [reflexivity | by vm_compute | by vm_compute | reflexivity].
Defined.

(** ** Conversation history *)

Section History.

Implicit Types st : Sessions.

(** One chat request either fails and leaves the store alone, or
    succeeds, appends the question and the answer to the history of its
    session and returns that history. *)
Lemma chat_step env sessionId question st :
  let out :=
    chatWithDocument env
      {| req_sessionId := sessionId; req_question := question |} st in
  (exchangeOf (env, question) out.1 = None
   ∧ status out.1 ≠ 200 ∧ out.2 = st)
  ∨ (∃ session answer cites,
       st !! sessionId = Some session
       ∧ exchangeOf (env, question) out.1 = Some (question, answer)
       ∧ out.1 = {| status := 200;
                    body := ChatResponse answer cites
                              (conversationHistory
                                 (pushExchange question answer session)) |}
       ∧ out.2 = <[sessionId := pushExchange question answer session]> st).
Proof.
  unfold chatWithDocument. cbn [req_sessionId req_question].
  destruct (negb (truthy sessionId) || negb (truthy question));
    [left; by vm_compute |].
  destruct (st !! sessionId) as [session|] eqn:Hs; [| left; by vm_compute].
  destruct (askQuestion _ _ _ _ _) as [[|] [d|] e];
    try (left; split; [done |]; split; [by vm_compute | done]).
  right. by exists session, (answer d), (citations d).
Qed.

Lemma turns_cons question answer exchanges :
  Spec.turns ((question, answer) :: exchanges) =
    {| role := user; content := question |}
    :: {| role := model; content := answer |} :: Spec.turns exchanges.
Proof. done. Qed.

Lemma turns_length exchanges :
  length (Spec.turns exchanges) = (2 * length exchanges)%nat.
Proof.
  induction exchanges as [|[q a] r IH]; [done |].
  rewrite turns_cons. cbn [length]. lia.
Qed.

Lemma turns_lookup exchanges i question answer :
  exchanges !! i = Some (question, answer) →
  Spec.turns exchanges !! (2 * i)%nat = Some {| role := user; content := question |}
  ∧ Spec.turns exchanges !! (2 * i + 1)%nat
    = Some {| role := model; content := answer |}.
Proof.
  revert i. induction exchanges as [|[q a] r IH]; intros i; [done |].
  rewrite turns_cons. destruct i as [|i].
  - by intros [= -> ->].
  - intros H. destruct (IH i H) as [H1 H2].
    replace (2 * S i)%nat with (S (S (2 * i))) by lia.
    replace (S (S (2 * i)) + 1)%nat with (S (S (2 * i + 1))) by lia.
    done.
Qed.

(** A sequence of chat requests appends exactly the exchanges of its
    successful calls. *)
Lemma chatSequence_history sessionId calls st session :
  st !! sessionId = Some session →
  ∃ session',
    (chatSequence sessionId calls st).2 !! sessionId = Some session'
    ∧ conversationHistory session' =
        conversationHistory session
        ++ Spec.turns (successes calls (chatSequence sessionId calls st).1).
Proof.
  revert st session. induction calls as [|[env question] calls IH];
    intros st session Hs.
  - exists session. by rewrite app_nil_r.
  - cbn [chatSequence].
    destruct (chat_step env sessionId question st) as
      [(Hex & _ & Hst)|(s0 & a & c & Hs0 & Hex & _ & Hst)];
      destruct (chatWithDocument env _ st) as [r st1]; cbn [fst snd] in *.
    + subst st1. destruct (IH st session Hs) as (s' & Hs' & Hh).
      destruct (chatSequence sessionId calls st) as [rs st2]; cbn [fst snd] in *.
      exists s'. split; [done |]. rewrite Hh.
      cbn [successes]. by rewrite Hex.
    + rewrite Hs in Hs0. injection Hs0 as <-. subst st1.
      destruct (IH (<[sessionId := pushExchange question a session]> st)
                  (pushExchange question a session)) as (s' & Hs' & Hh);
        [by rewrite lookup_insert_eq |].
      destruct (chatSequence sessionId calls _) as [rs st2]; cbn [fst snd] in *.
      exists s'. split; [done |]. rewrite Hh.
      cbn [successes]. rewrite Hex, turns_cons.
      cbn [pushExchange conversationHistory]. by rewrite <- !app_assoc.
Qed.

End History.

(** C3.  Starting from a session with an empty history, after any sequence
    of chat requests on that session, of which [N] succeed, the history
    has length [2 * N]; its entry [2 * i] is the [user] turn holding the
    question of the [i]-th successful call and its entry [2 * i + 1] the
    [model] turn holding that call's answer.  A single request that does
    not succeed leaves the whole store unchanged, and one that succeeds
    returns the history as it is after the two turns were appended. *)
Theorem history_pairing (sessionId : jsstring) (calls : list (Env * jsstring))
    (documentSessions : Sessions) (session : DocumentSession) :
  documentSessions !! sessionId = Some session →
  conversationHistory session = [] →
  let out := chatSequence sessionId calls documentSessions in
  let ok := successes calls out.1 in
  (∃ session',
     out.2 !! sessionId = Some session'
     ∧ conversationHistory session' = Spec.turns ok
     ∧ length (conversationHistory session') = (2 * length ok)%nat
     ∧ ∀ i question answer,
         ok !! i = Some (question, answer) →
         conversationHistory session' !! (2 * i)%nat
           = Some {| role := user; content := question |}
         ∧ conversationHistory session' !! (2 * i + 1)%nat
           = Some {| role := model; content := answer |})
  ∧ (∀ env question st,
       let step :=
         chatWithDocument env
           {| req_sessionId := sessionId; req_question := question |} st in
       (status step.1 ≠ 200 → step.2 = st)
       ∧ (status step.1 = 200 →
          ∃ before after answer cites,
            st !! sessionId = Some before
            ∧ step.2 !! sessionId = Some after
            ∧ conversationHistory after =
                conversationHistory before
                ++ [ {| role := user; content := question |};
                     {| role := model; content := answer |} ]
            ∧ body step.1
              = ChatResponse answer cites (conversationHistory after))).
Proof.
  intros Hs Hempty out ok. split.
  - destruct (chatSequence_history sessionId calls documentSessions session Hs)
      as (s' & Hs' & Hh).
    rewrite Hempty in Hh. cbn [app] in Hh. fold out in Hs', Hh. fold ok in Hh.
    exists s'. split; [done |]. split; [done |]. rewrite Hh.
    split; [apply turns_length |]. intros i q a. apply turns_lookup.
  - intros env question st step. subst step.
    destruct (chat_step env sessionId question st) as
      [(_ & Hne & Hst)|(s0 & a & c & Hs0 & _ & Hr & Hst)].
    + split; [done | by intros ?].
    + split; [intros Hn; by rewrite Hr in Hn |]. intros _.
      exists s0, (pushExchange question a s0), a, c.
      split; [done |]. split; [by rewrite Hst, lookup_insert_eq |].
      split; [cbn [pushExchange conversationHistory]; by rewrite <- app_assoc |].
      by rewrite Hr.
Qed.

Lemma history_pairing_witness :
  ∃ session',
    (chatSequence (lit "3f2b")
       [ (answering (Returns (Some (lit "ANSWER: Blue. CITATIONS: [Section 1]"))),
          lit "What colour is the sky?");
         (answering (Throws (ErrorObject (lit "timeout"))), lit "Why?");
         (answering (Returns (Some (lit "Because."))), lit "Why?") ]
       sampleSessions).2 !! lit "3f2b" = Some session'
    ∧ conversationHistory session' =
        [ {| role := user; content := lit "What colour is the sky?" |};
          {| role := model; content := lit "Blue." |};
          {| role := user; content := lit "Why?" |};
          {| role := model; content := lit "Because." |} ].
Proof.
  destruct (history_pairing (lit "3f2b")
       [ (answering (Returns (Some (lit "ANSWER: Blue. CITATIONS: [Section 1]"))),
          lit "What colour is the sky?");
         (answering (Throws (ErrorObject (lit "timeout"))), lit "Why?");
         (answering (Returns (Some (lit "Because."))), lit "Why?") ]
       sampleSessions sampleSession)
    as [(session' & Hlookup & Hturns & _) _];
    [by vm_compute | reflexivity |].
  exists session'. split; [exact Hlookup |]. rewrite Hturns. by vm_compute.
Defined.

(** ** Failure policy of the chat endpoint *)

Section AskPolicy.

Variable env : Env.
Variable documentSessions : Sessions.

Implicit Types req : ChatRequest.

Lemma truthy_true (s : jsstring) : s ≠ [] → truthy s = true.
Proof. by destruct s. Qed.

Lemma chat_service req session :
  req_sessionId req ≠ [] → req_question req ≠ [] →
  documentSessions !! req_sessionId req = Some session →
  chatWithDocument env req documentSessions =
    let result :=
      askQuestion (OPENAI_API_KEY env) (create env) (req_question req)
        (text session) (conversationHistory session) in
    match success result, data result with
    | true, Some d =>
        ({| status := 200;
            body := ChatResponse (answer d) (citations d)
                      (conversationHistory
                         (pushExchange (req_question req) (answer d) session)) |},
         <[req_sessionId req :=
             pushExchange (req_question req) (answer d) session]>
           documentSessions)
    | _, _ =>
        (serviceError
           match error result with
           | Some e => if truthy e then e else lit "Failed to generate response"
           | None => lit "Failed to generate response"
           end,
         documentSessions)
    end.
Proof.
  intros Hs Hq Hl. unfold chatWithDocument.
  rewrite (truthy_true _ Hs), (truthy_true _ Hq), Hl. cbn [negb orb].
  by destruct (askQuestion _ _ _ _ _) as [[|] [d|] e].
Qed.

Lemma upstream_kind message :
  Spec.errorKind (serviceError (lit "Failed to answer question: " ++ message))
  = Some Spec.UpstreamError.
Proof.
  unfold Spec.errorKind, serviceError. cbn [body status].
  change (500 =? 400) with false. change (500 =? 404) with false.
  cbv iota.
  rewrite bool_decide_eq_false_2 by (by vm_compute).
  rewrite bool_decide_eq_false_2 by (by vm_compute).
  rewrite take_app_length. by rewrite bool_decide_eq_true_2.
Qed.

(** C5, as amended.  The chat endpoint tests its conditions in a fixed
    order.  An empty session id or an empty question is refused as a bad
    request (400); otherwise an id absent from the store is not found
    (404); otherwise a question of white space only is refused by the
    service ("Question cannot be empty", reported with status 500);
    otherwise, for a session with a non-blank text, a missing credential
    is a configuration error and a model call that throws is an upstream
    error (both 500); and when the model returns non-empty content the
    call succeeds with status 200. *)
Theorem ask_failure_policy req :
  let sid := req_sessionId req in
  let question := req_question req in
  let r := (chatWithDocument env req documentSessions).1 in
  (sid = [] ∨ question = [] →
   r = {| status := 400;
          body := ErrorResponse (lit "Invalid request")
                    (lit "sessionId and question are required") |}
   ∧ Spec.errorKind r = Some Spec.EmptyInput)
  ∧ (sid ≠ [] → question ≠ [] → documentSessions !! sid = None →
     r = sessionNotFound ∧ Spec.errorKind r = Some Spec.NotFound)
  ∧ (∀ session,
       sid ≠ [] → question ≠ [] → documentSessions !! sid = Some session →
       (trim question = [] →
        r = serviceError (lit "Question cannot be empty")
        ∧ Spec.errorKind r = Some Spec.EmptyInput)
       ∧ (trim question ≠ [] → trim (text session) ≠ [] →
          (truthy_opt (OPENAI_API_KEY env) = false →
           r = serviceError (lit "OPENAI_API_KEY is not configured")
           ∧ Spec.errorKind r = Some Spec.ConfigurationError)
          ∧ (truthy_opt (OPENAI_API_KEY env) = true →
             let reply :=
               create env
                 (buildMessages question (text session)
                    (conversationHistory session)) in
             (∀ e, reply = Throws e →
                   Spec.errorKind r = Some Spec.UpstreamError
                   ∧ status r = 500)
             ∧ (∀ content, reply = Returns (Some content) → content ≠ [] →
                  r = {| status := 200;
                         body :=
                           ChatResponse (answer (parseResponse content))
                             (citations (parseResponse content))
                             (conversationHistory session
                              ++ [ {| role := user; content := question |};
                                   {| role := model;
                                      content := answer (parseResponse content) |} ])
                      |})))).
Proof.
  intros sid question r. subst sid question r. split; [| split].
  - intros H. unfold chatWithDocument.
    assert (negb (truthy (req_sessionId req)) || negb (truthy (req_question req))
            = true) as ->; [| by vm_compute].
    destruct H as [-> | ->]; [done | by destruct (req_sessionId req)].
  - intros Hs Hq Hl. unfold chatWithDocument.
    rewrite (truthy_true _ Hs), (truthy_true _ Hq), Hl. by vm_compute.
  - intros session Hs Hq Hl. rewrite (chat_service req session Hs Hq Hl).
    unfold askQuestion. rewrite !blank_guard. split.
    + intros Hb. rewrite (bool_decide_eq_true_2 _ Hb). by vm_compute.
    + intros Hnb Hdoc. rewrite !bool_decide_eq_false_2 by done. split.
      * intros ->. by vm_compute.
      * intros ->. cbn [negb]. split.
        -- intros e ->. cbn [success data error OpenaiService.failure fst].
           destruct e as [m|]; cbn; split; try done; apply upstream_kind.
        -- intros content -> Hc. rewrite (truthy_true _ Hc).
           cbn [success data error fst pushExchange conversationHistory].
           by rewrite <- app_assoc.
Qed.

End AskPolicy.

Lemma ask_failure_policy_witness :
  (chatWithDocument (answering (Returns (Some (lit "ANSWER: Blue. [Section 1]"))))
     {| req_sessionId := lit "3f2b"; req_question := lit "What colour?" |}
     sampleSessions).1
  = {| status := 200;
       body := ChatResponse (lit "Blue. [Section 1]") [ lit "Section 1" ]
                 [ {| role := user; content := lit "What colour?" |};
                   {| role := model; content := lit "Blue. [Section 1]" |} ] |}.
Proof.
  destruct (ask_failure_policy
              (answering (Returns (Some (lit "ANSWER: Blue. [Section 1]"))))
              sampleSessions
              {| req_sessionId := lit "3f2b"; req_question := lit "What colour?" |})
    as (_ & _ & H).
  destruct (H sampleSession) as [_ H2]; [done | done | by vm_compute |].
  destruct H2 as [_ H3]; [by vm_compute | by vm_compute |].
  destruct (H3 eq_refl) as [_ H4].
  rewrite (H4 (lit "ANSWER: Blue. [Section 1]") eq_refl); [| done].
  by vm_compute.
Defined.

(** C5 as stated fails: a question of white space only, sent with a session
    id that the store does not hold, is answered "Session not found" (404),
    not with the empty-input failure the statement requires for every blank
    question. *)
Lemma ask_blank_question_unknown_session :
  trim (lit " ") = []
  ∧ (chatWithDocument (answering (Returns (Some (lit "ANSWER: ok"))))
       {| req_sessionId := lit "never-issued"; req_question := lit " " |} ∅).1
    = sessionNotFound
  ∧ ¬ Spec.ask_as_claimed (answering (Returns (Some (lit "ANSWER: ok"))))
        {| req_sessionId := lit "never-issued"; req_question := lit " " |} ∅.
Proof.
  split; [reflexivity |]. split; [by vm_compute |].
  intros [H _]. specialize (H eq_refl). vm_compute in H. discriminate H.
Qed.

(** The credential is a further condition of success: without it a valid
    session and a non-blank question end in a configuration error, whatever
    the model would have replied. *)
Lemma ask_without_credential :
  (chatWithDocument
     {| OPENAI_API_KEY := None;
        create := λ _, Returns (Some (lit "ANSWER: ok"));
        toLocaleString := λ _, [] |}
     {| req_sessionId := lit "3f2b"; req_question := lit "What colour?" |}
     sampleSessions).1
  = serviceError (lit "OPENAI_API_KEY is not configured").
Proof. by vm_compute. Qed.

(** A completion without content does not fail the chat endpoint: the
    object in [result.data] is truthy whatever its answer, so the empty
    answer is appended to the history and returned with status 200. *)
Lemma ask_empty_content :
  chatWithDocument (answering (Returns None))
    {| req_sessionId := lit "3f2b"; req_question := lit "What colour?" |}
    sampleSessions
  = ({| status := 200;
        body := ChatResponse [] []
                  [ {| role := user; content := lit "What colour?" |};
                    {| role := model; content := [] |} ] |},
     <[ lit "3f2b" := pushExchange (lit "What colour?") [] sampleSession ]>
       sampleSessions).
Proof. by vm_compute. Qed.

(** ** Transcript export *)

Section TranscriptExport.

Variable env : Env.

Implicit Types history : list ConversationMessage.

Local Open Scope nat_scope.

Lemma pairsOf_drop history j question answer :
  history !! (2 * j) = Some question →
  history !! (2 * j + 1) = Some answer →
  Spec.pairsOf (drop (2 * j) history)
  = (question, answer) :: Spec.pairsOf (drop (2 * (j + 1)) history).
Proof.
  intros Hq Ha.
  rewrite (drop_S _ _ _ Hq).
  replace (S (2 * j)) with (2 * j + 1) by lia.
  rewrite (drop_S _ _ _ Ha).
  by replace (S (2 * j + 1)) with (2 * (j + 1)) by lia.
Qed.

Lemma pairsOf_drop_last history j :
  history !! (2 * j + 1) = None → Spec.pairsOf (drop (2 * j) history) = [].
Proof.
  intros Ha. destruct (history !! (2 * j)) as [q|] eqn:Hq.
  - rewrite (drop_S _ _ _ Hq).
    replace (S (2 * j)) with (2 * j + 1) by lia.
    by rewrite (drop_ge history (2 * j + 1)) by by apply lookup_ge_None.
  - by rewrite drop_ge by by apply lookup_ge_None.
Qed.

Lemma exportStep_spec history j markdown :
  exportStep history (2 * j) markdown =
    match history !! (2 * j), history !! (2 * j + 1) with
    | Some question, Some answer =>
        markdown ++ Spec.block (j + 1) question answer
    | _, _ => markdown
    end.
Proof.
  unfold exportStep, Spec.block.
  destruct (history !! (2 * j)) as [q|]; [| done].
  destruct (history !! (2 * j + 1)) as [a|]; [| done].
  replace (N.of_nat (2 * j / 2) + 1)%N with (N.of_nat (j + 1)); [done |].
  rewrite (Nat.mul_comm 2 j), Nat.div_mul by done. lia.
Qed.

(** With enough fuel to reach the end of the history, the export loop
    appends the blocks of the remaining pairs, numbered consecutively. *)
Lemma exportLoop_spec fuel history j markdown :
  length history ≤ 2 * j + 2 * fuel →
  exportLoop fuel history (2 * j) markdown
  = markdown ++ Spec.blocks (j + 1) (Spec.pairsOf (drop (2 * j) history)).
Proof.
  revert j markdown. induction fuel as [|fuel IH]; intros j markdown Hlen.
  - rewrite drop_ge by lia. cbn. by rewrite app_nil_r.
  - cbn [exportLoop]. destruct (2 * j <? length history) eqn:Hlt.
    + apply Nat.ltb_lt in Hlt.
      replace (2 * j + 2) with (2 * (j + 1)) by lia.
      rewrite IH by lia. rewrite exportStep_spec.
      destruct (lookup_lt_is_Some_2 history (2 * j) Hlt) as [q Hq].
      rewrite Hq. destruct (history !! (2 * j + 1)) as [a|] eqn:Ha.
      * rewrite (pairsOf_drop _ _ _ _ Hq Ha). cbn [Spec.blocks].
        rewrite <- app_assoc. by replace (S (j + 1)) with (j + 1 + 1) by lia.
      * rewrite (pairsOf_drop_last _ _ Ha).
        rewrite drop_ge; [done |]. apply lookup_ge_None in Ha. lia.
    + apply Nat.ltb_ge in Hlt. rewrite drop_ge by lia. cbn.
      by rewrite app_nil_r.
Qed.

Lemma renderMarkdown_spec session :
  renderMarkdown env session =
    Spec.header env session
    ++ (if bool_decide (conversationHistory session = [])
        then lit "No questions asked yet.
"
        else Spec.blocks 1 (Spec.pairsOf (conversationHistory session))).
Proof.
  unfold renderMarkdown, Spec.header. rewrite length_zero_nil.
  case_bool_decide as E.
  - by rewrite <- !app_assoc.
  - rewrite (exportLoop_spec _ _ 0) by lia. cbn [drop Nat.mul Nat.add].
    by rewrite <- !app_assoc.
Qed.

Lemma pairsOf_app_even history rest :
  Nat.Even (length history) →
  Spec.pairsOf (history ++ rest) = Spec.pairsOf history ++ Spec.pairsOf rest.
Proof.
  intros [k Hk]. revert history Hk.
  induction k as [|k IH]; intros history Hk.
  - by destruct history.
  - destruct history as [|q [|a history]]; cbn [length] in Hk; try lia.
    cbn [app Spec.pairsOf]. rewrite IH by lia. done.
Qed.

Lemma pairsOf_length_even history k :
  length history = 2 * k → length (Spec.pairsOf history) = k.
Proof.
  revert history. induction k as [|k IH]; intros history Hk.
  - by destruct history.
  - destruct history as [|q [|a history]]; cbn [length] in Hk; try lia.
    cbn [Spec.pairsOf length]. rewrite IH by lia. done.
Qed.

(** C10.  For a history of odd length [2 * k + 1] the markdown consists
    of the header and the blocks of the [k] pairs formed by the first
    [2 * k] turns, numbered from 1; the last turn contributes nothing, so
    the markdown is the same whatever that turn holds. *)
Theorem export_odd_history session history last_turn k :
  conversationHistory session = history ++ [last_turn] →
  length history = 2 * k →
  renderMarkdown env session
    = Spec.header env session ++ Spec.blocks 1 (Spec.pairsOf history)
  ∧ length (Spec.pairsOf history) = k.
Proof.
  intros Hh Hk. split; [| by apply pairsOf_length_even].
  rewrite renderMarkdown_spec, Hh.
  rewrite bool_decide_eq_false_2 by by destruct history.
  rewrite pairsOf_app_even by by exists k; lia.
  cbn [Spec.pairsOf]. by rewrite app_nil_r.
Qed.

(** C8.  [exportNotes] returns the store it was given, and a second
    export of the same store returns the same response: the same status,
    markdown and file name. *)
Theorem export_idempotent (sessionId : jsstring) (documentSessions : Sessions) :
  let first := exportNotes env sessionId documentSessions in
  let second := exportNotes env sessionId first.2 in
  first.2 = documentSessions
  ∧ second.2 = documentSessions
  ∧ second.1 = first.1.
Proof.
  intros first second.
  assert (first.2 = documentSessions) as H.
  { subst first. unfold exportNotes.
    destruct (negb (truthy sessionId)); [done |].
    by destruct (documentSessions !! sessionId). }
  subst second. by rewrite !H.
Qed.

End TranscriptExport.

Lemma export_odd_history_witness :
  renderMarkdown (answering (Returns None))
    {| sessionId := lit "3f2b"; filename := lit "notes.txt";
       filepath := lit "uploads/notes_1.txt"; mimetype := lit "text/plain";
       text := lit "Text."; uploadedAt := 1;
       conversationHistory :=
         [ {| role := user; content := lit "Q?" |};
           {| role := model; content := lit "A." |};
           {| role := user; content := lit "dangling" |} ] |}
  = lit "# Document Q&A Notes

**Document:** notes.txt
**Date:** 11/14/2023, 10:13:20 PM

---

## Q1: Q?

**Answer:**

A.

---

".
Proof.
  apply (export_odd_history (answering (Returns None))
           {| sessionId := lit "3f2b"; filename := lit "notes.txt";
              filepath := lit "uploads/notes_1.txt"; mimetype := lit "text/plain";
              text := lit "Text."; uploadedAt := 1;
              conversationHistory :=
                [ {| role := user; content := lit "Q?" |};
                  {| role := model; content := lit "A." |};
                  {| role := user; content := lit "dangling" |} ] |}
           [ {| role := user; content := lit "Q?" |};
             {| role := model; content := lit "A." |} ]
           {| role := user; content := lit "dangling" |} 1%nat);
    reflexivity.
Defined.

(** ** The upload boundary *)

Section UploadBoundary.

Import Upload.

Lemma fileFilter_accepts file :
  toLowerCase (NodePath.extname (originalname file)) ∈ ALLOWED_EXTENSIONS →
  in_mimetype file ∈ ALLOWED_MIME_TYPES →
  fileFilter file = None.
Proof.
  intros He Hm. unfold fileFilter.
  by rewrite (bool_decide_eq_true_2 _ He), (bool_decide_eq_true_2 _ Hm).
Qed.

Lemma fileFilter_rejects file :
  toLowerCase (NodePath.extname (originalname file)) ∉ ALLOWED_EXTENSIONS
  ∨ in_mimetype file ∉ ALLOWED_MIME_TYPES →
  ∃ message, fileFilter file = Some message.
Proof.
  intros H. unfold fileFilter.
  destruct (decide (toLowerCase (NodePath.extname (originalname file))
                    ∈ ALLOWED_EXTENSIONS)) as [He|He].
  - rewrite (bool_decide_eq_true_2 _ He). cbn [negb].
    destruct H as [H|H]; [done |].
    rewrite (bool_decide_eq_false_2 _ H). by eexists.
  - rewrite (bool_decide_eq_false_2 _ He). by eexists.
Qed.

(** A successful upload stores a session with an empty history and a
    text that is not blank. *)
Lemma uploadDocument_creates (w : DocumentProcessor.World) (uuid : jsstring)
    (now : N) (file : option StoredFile) (sessions : Sessions) :
  status (uploadDocument w uuid now file sessions).1 = 200 →
  ∃ session,
    (uploadDocument w uuid now file sessions).2 = <[uuid := session]> sessions
    ∧ conversationHistory session = []
    ∧ trim (text session) ≠ [].
Proof.
  unfold uploadDocument. destruct file as [file|]; [| done].
  destruct (processDocument_cases w (st_path file) (st_mimetype file))
    as [[t [Ht ->]]|[m ->]]; [| done].
  intros _. eexists. split; [reflexivity |]. split; [done |].
  cbn [text pd_text]. by rewrite trim_idem.
Qed.

(** C6, as amended.  The filter tests the extension and the declared
    type separately, each against its own list.  A file whose extension
    and type are both allowed is refused with the size error exactly when
    it has 10,485,760 bytes or more, so a file of 10,485,761 bytes is; a
    [.pdf] file declared [text/plain] of fewer than 10,485,760 bytes is
    accepted, like every such file whose extension and type are each
    among the three allowed ones, and its upload succeeds when extraction
    does; a file is refused with a type error exactly when its extension
    or its declared type is not allowed. *)
Theorem upload_boundary (timestamp : N) (file : IncomingFile) :
  let ext := toLowerCase (NodePath.extname (originalname file)) in
  (ext ∈ ALLOWED_EXTENSIONS → in_mimetype file ∈ ALLOWED_MIME_TYPES →
   (10485760 ≤ size file ↔
    ∃ err,
      uploadMiddleware timestamp file = inl err
      ∧ handleMulterError err
        = {| status := 400;
             body := ErrorResponse (lit "File too large")
                       (lit "File size must not exceed 10MB") |}))
  ∧ (ext = lit ".pdf" → in_mimetype file = lit "text/plain" →
     size file < 10485760 →
     ∃ stored, uploadMiddleware timestamp file = inr stored)
  ∧ (ext ∈ ALLOWED_EXTENSIONS → in_mimetype file ∈ ALLOWED_MIME_TYPES →
     size file < 10485760 →
     ∃ stored,
       uploadMiddleware timestamp file = inr stored
       ∧ st_mimetype stored = in_mimetype file
       ∧ ∀ w uuid sessions,
           pd_success
             (DocumentProcessor.processDocument w (st_path stored)
                (st_mimetype stored)) = true →
           status (postUpload w uuid timestamp file sessions).1 = 200)
  ∧ (ext ∉ ALLOWED_EXTENSIONS ∨ in_mimetype file ∉ ALLOWED_MIME_TYPES ↔
     ∃ message,
       uploadMiddleware timestamp file = inl (PlainError message)
       ∧ handleMulterError (PlainError message)
         = {| status := 400;
              body := ErrorResponse (lit "File validation error") message |}).
Proof.
  intros ext. subst ext.
  assert (∀ He : toLowerCase (NodePath.extname (originalname file))
                 ∈ ALLOWED_EXTENSIONS,
          in_mimetype file ∈ ALLOWED_MIME_TYPES →
          size file < 10485760 →
          ∃ stored,
            uploadMiddleware timestamp file = inr stored
            ∧ st_mimetype stored = in_mimetype file
            ∧ ∀ w uuid sessions,
                pd_success
                  (DocumentProcessor.processDocument w (st_path stored)
                     (st_mimetype stored)) = true →
                status (postUpload w uuid timestamp file sessions).1 = 200)
    as Haccept.
  { intros He Hm Hsize. unfold postUpload, uploadMiddleware.
    rewrite (fileFilter_accepts _ He Hm).
    assert ((MAX_FILE_SIZE <=? size file) = false) as ->
      by by apply N.leb_gt.
    eexists. split; [reflexivity |]. split; [reflexivity |].
    intros w uuid sessions Hok. unfold uploadDocument. by rewrite Hok. }
  split; [| split; [| split; [exact Haccept |]]].
  - intros He Hm. unfold uploadMiddleware.
    rewrite (fileFilter_accepts _ He Hm).
    change 10485760 with MAX_FILE_SIZE.
    destruct (N.leb_spec MAX_FILE_SIZE (size file)) as [Hsize|Hsize].
    + split; [| done]. intros _.
      eexists. split; [reflexivity | by vm_compute].
    + split; [lia |]. by intros (err & [=] & _).
  - intros He Hm Hsize.
    destruct Haccept as (stored & Hst & _); [| | done | by exists stored].
    + rewrite He. apply (bool_decide_unpack _). by vm_compute.
    + rewrite Hm. apply (bool_decide_unpack _). by vm_compute.
  - split.
    + intros H. destruct (fileFilter_rejects _ H) as [message Hf].
      exists message. unfold uploadMiddleware. by rewrite Hf.
    + intros (message & Hu & _). unfold uploadMiddleware in Hu.
      destruct (decide (toLowerCase (NodePath.extname (originalname file))
                        ∈ ALLOWED_EXTENSIONS)) as [He|He]; [| by left].
      destruct (decide (in_mimetype file ∈ ALLOWED_MIME_TYPES)) as [Hm|Hm];
        [| by right].
      rewrite (fileFilter_accepts _ He Hm) in Hu.
      by destruct (MAX_FILE_SIZE <=? size file).
Qed.

(** C9, as amended.  The stored name is a function of the original name
    and the upload time alone: the sanitised base name, an underscore,
    the time in decimal, and the extension.  The sanitised base name has
    the length of the base name; a letter, digit, hyphen or underscore is
    kept and every other character becomes an underscore. *)
Theorem stored_name_shape (timestamp : N) (originalname : jsstring) :
  let ext := NodePath.extname originalname in
  let base := NodePath.basename originalname ext in
  ∃ sanitized,
    storage_filename timestamp originalname
      = sanitized ++ lit "_" ++ ofNumber timestamp ++ ext
    ∧ length sanitized = length base
    ∧ Forall2
        (λ c d,
           d = if Spec.isAlphanumeric c
                  || (c =? Spec.HYPHEN) || (c =? Spec.UNDERSCORE)
               then c else Spec.UNDERSCORE)
        base sanitized
    ∧ Forall
        (λ d, Spec.isAlphanumeric d
              || (d =? Spec.HYPHEN) || (d =? Spec.UNDERSCORE) = true)
        sanitized.
Proof.
  intros ext base.
  exists ((λ c, if keptInName c then c else 0x5f) <$> base).
  split; [done |]. split; [by rewrite length_fmap |]. split.
  - apply Forall2_fmap_r, Forall_Forall2_diag, Forall_forall. by intros c _.
  - apply Forall_fmap, Forall_forall. intros c _. cbn.
    change (Spec.isAlphanumeric ?x || (?x =? Spec.HYPHEN)
            || (?x =? Spec.UNDERSCORE)) with (keptInName x).
    by destruct (keptInName c) eqn:E.
Qed.

End UploadBoundary.

Lemma upload_boundary_witness :
  (∃ err,
     Upload.uploadMiddleware 1700000000000
       {| Upload.originalname := lit "big.docx";
          Upload.in_mimetype :=
            lit "application/vnd.openxmlformats-officedocument.wordprocessingml.document";
          Upload.size := 10485761 |} = inl err
     ∧ handleMulterError err
       = {| status := 400;
            body := ErrorResponse (lit "File too large")
                      (lit "File size must not exceed 10MB") |}).
Proof.
  apply (upload_boundary 1700000000000
           {| Upload.originalname := lit "big.docx";
              Upload.in_mimetype :=
                lit "application/vnd.openxmlformats-officedocument.wordprocessingml.document";
              Upload.size := 10485761 |});
    [apply (bool_decide_unpack _); by vm_compute
    | apply (bool_decide_unpack _); by vm_compute
    | cbn [Upload.size]; lia].
Defined.

(** C6 as stated fails: a file named [report.pdf] and declared
    [text/plain] passes the filter and is stored. *)
Lemma upload_pdf_declared_text_accepted :
  Upload.uploadMiddleware 1700000000000
    {| Upload.originalname := lit "report.pdf";
       Upload.in_mimetype := lit "text/plain";
       Upload.size := 2048 |}
  = inr {| Upload.st_originalname := lit "report.pdf";
           Upload.st_mimetype := lit "text/plain";
           Upload.st_filename := lit "report_1700000000000.pdf";
           Upload.st_path := lit "uploads/report_1700000000000.pdf" |}
  ∧ ¬ Spec.mismatch_refused 1700000000000
        {| Upload.originalname := lit "report.pdf";
           Upload.in_mimetype := lit "text/plain";
           Upload.size := 2048 |}.
Proof.
  split; [by vm_compute |].
  intros H. destruct (H eq_refl eq_refl) as [message Hm].
  vm_compute in Hm. discriminate Hm.
Qed.

(** C9 as stated fails: the hyphen is not alphanumeric, yet it is kept. *)
Lemma stored_name_keeps_hyphen :
  Upload.storage_filename 1700000000000 (lit "my-file v2.pdf")
  = lit "my-file_v2_1700000000000.pdf"
  ∧ Spec.stored_name_as_claimed 1700000000000 (lit "my-file v2.pdf")
    = lit "my_file_v2_1700000000000.pdf"
  ∧ Upload.storage_filename 1700000000000 (lit "my-file v2.pdf")
    ≠ Spec.stored_name_as_claimed 1700000000000 (lit "my-file v2.pdf").
Proof. by vm_compute. Qed.

(** * Further properties *)

(** ** The services *)

Section Services.

Variable key : option jsstring.
Variable create : Completions.

Lemma failure_populated {T} (message : jsstring) :
  message ≠ [] → populated (@OpenaiService.failure T message).
Proof. intros H. right. split; [done |]. split; [done |]. by exists message. Qed.

Lemma complete_populated messages context :
  context ≠ [] → populated (complete create messages context).
Proof.
  intros H. unfold complete. destruct (create messages) as [content|e].
  - left. by repeat split.
  - apply failure_populated. by destruct context.
Qed.

(** Whatever the inputs, the credential and the behaviour of the model,
    each of the four services returns a result populated on one side
    only: [success] with data and no error, or a failure with a
    non-empty error message and no data. *)
Theorem service_results_populated
    (question documentText text_ : jsstring)
    (history : list ConversationMessage) :
  populated (askQuestion key create question documentText history)
  ∧ populated (analyzeDocument key create documentText)
  ∧ populated (generateSummary key create documentText)
  ∧ populated (simplifyText key create text_ documentText).
Proof.
  split; [| split; [| split]].
  - unfold askQuestion.
    repeat (match goal with
            | |- context [if ?b then _ else _] => destruct b
            end; [by apply failure_populated |]).
    destruct (create _) as [content|e].
    + left. by repeat split.
    + by apply failure_populated.
  - unfold analyzeDocument.
    repeat (match goal with
            | |- context [if ?b then _ else _] => destruct b
            end; [by apply failure_populated |]).
    by apply complete_populated.
  - unfold generateSummary.
    repeat (match goal with
            | |- context [if ?b then _ else _] => destruct b
            end; [by apply failure_populated |]).
    by apply complete_populated.
  - unfold simplifyText.
    repeat (match goal with
            | |- context [if ?b then _ else _] => destruct b
            end; [by apply failure_populated |]).
    by apply complete_populated.
Qed.

End Services.

(** The guards come before the network: when the text a service works on is
    blank, or the credential is missing or empty, the result is the same
    whatever the model would do. *)
Theorem guards_precede_model_call
    (key : option jsstring) (create1 create2 : Completions)
    (question documentText text_ : jsstring)
    (history : list ConversationMessage) :
  (trim question = [] ∨ trim documentText = [] ∨ truthy_opt key = false →
   askQuestion key create1 question documentText history
   = askQuestion key create2 question documentText history)
  ∧ (trim documentText = [] ∨ truthy_opt key = false →
     generateSummary key create1 documentText
     = generateSummary key create2 documentText
     ∧ analyzeDocument key create1 documentText
       = analyzeDocument key create2 documentText)
  ∧ (trim text_ = [] ∨ truthy_opt key = false →
     simplifyText key create1 text_ documentText
     = simplifyText key create2 text_ documentText).
Proof.
  unfold askQuestion, generateSummary, analyzeDocument, simplifyText.
  rewrite !blank_guard.
  split; [| split].
  - intros [H|[H|H]].
    + by rewrite (bool_decide_eq_true_2 _ H).
    + rewrite (bool_decide_eq_true_2 _ H). by case_bool_decide.
    + rewrite H. by repeat case_bool_decide.
  - intros [H|H].
    + by rewrite (bool_decide_eq_true_2 _ H).
    + rewrite H. by case_bool_decide.
  - intros [H|H].
    + by rewrite (bool_decide_eq_true_2 _ H).
    + rewrite H. by case_bool_decide.
Qed.

Lemma guards_precede_model_call_witness :
  askQuestion None (λ _, Returns (Some (lit "ANSWER: yes"))) (lit "Why?")
    (lit "Some text.") []
  = askQuestion None (λ _, Throws OtherValue) (lit "Why?") (lit "Some text.") [].
Proof.
  apply (guards_precede_model_call None
           (λ _, Returns (Some (lit "ANSWER: yes"))) (λ _, Throws OtherValue)
           (lit "Why?") (lit "Some text.") [] []).
  right. right. reflexivity.
Defined.

(** ** More on the answer formatter *)

Section ParsedParts.

Implicit Types s pat raw m : jsstring.

Lemma elem_of_trim c s : c ∈ trim s → c ∈ s.
Proof.
  destruct (trim_split s) as (w1 & w2 & Hs & _). intros H.
  rewrite Hs, !elem_of_app. tauto.
Qed.

Lemma elem_of_drop_list c (n : nat) s : c ∈ drop n s → c ∈ s.
Proof. intros H. rewrite <- (take_drop n s), elem_of_app. by right. Qed.

Lemma elem_of_take_list c (n : nat) s : c ∈ take n s → c ∈ s.
Proof. intros H. rewrite <- (take_drop n s), elem_of_app. by left. Qed.

Lemma elem_of_strip_brackets c m :
  c ∈ strip_brackets m ↔ c ∈ m ∧ c ≠ LBRACKET ∧ c ≠ RBRACKET.
Proof. unfold strip_brackets. rewrite list_elem_of_filter. tauto. Qed.

Lemma label_clean m :
  trim (Spec.label m) = Spec.label m
  ∧ (LBRACKET ∉ Spec.label m) ∧ (RBRACKET ∉ Spec.label m).
Proof.
  unfold Spec.label. split; [apply trim_idem |].
  split; intros H%elem_of_trim%elem_of_strip_brackets; tauto.
Qed.

Lemma labels_clean s c :
  c ∈ Spec.labels s →
  c ≠ [] ∧ trim c = c ∧ (LBRACKET ∉ c) ∧ (RBRACKET ∉ c).
Proof.
  unfold Spec.labels.
  rewrite first_occurrences_elem, list_elem_of_filter, list_elem_of_fmap.
  intros [Hne (m & -> & _)]. split; [done |]. apply label_clean.
Qed.

(** Every citation of a parsed response is a non-empty label without
    white space at either end and without any bracket character. *)
Theorem citations_clean raw :
  Forall (λ c, c ≠ [] ∧ trim c = c ∧ (LBRACKET ∉ c) ∧ (RBRACKET ∉ c))
    (citations (parseResponse raw)).
Proof.
  rewrite parse_citations. unfold Spec.two_pass.
  apply Forall_forall. intros c. case_bool_decide; apply labels_clean.
Qed.

(** *** Texts without a closing bracket *)

Lemma bracket_here_infix s m c :
  bracket_here s = Some m → c ∈ m → c ∈ s.
Proof.
  intros H Hc. destruct (bracket_here_shape _ _ H) as (_ & _ & _ & _ & rest & ->).
  rewrite elem_of_app. by left.
Qed.

Lemma bracket_scan_infix skip s m c :
  m ∈ bracket_scan skip s → c ∈ m → c ∈ s.
Proof.
  revert skip. induction s as [|d r IH]; intros skip; cbn [bracket_scan].
  - by intros ?%elem_of_nil.
  - destruct skip; [| intros; apply elem_of_cons; right; by eapply IH].
    destruct (bracket_here (d :: r)) as [m'|] eqn:E;
      [| intros; apply elem_of_cons; right; by eapply IH].
    intros [->|H]%elem_of_cons Hc; [by eapply bracket_here_infix |].
    apply elem_of_cons. right. by eapply IH.
Qed.

Lemma match_brackets_none s : RBRACKET ∉ s → match_brackets s = [].
Proof.
  intros H. destruct (match_brackets s) as [|m ms] eqn:E; [done |].
  exfalso. apply H.
  assert (m ∈ bracket_scan 0 s) as Hm by (fold (match_brackets s); rewrite E; left).
  destruct (bracket_scan_shape _ _ _ Hm) as (run & -> & _).
  apply (bracket_scan_infix _ _ _ _ Hm).
  apply elem_of_cons. right. apply elem_of_app. right. left.
Qed.

Lemma labels_none s : RBRACKET ∉ s → Spec.labels s = [].
Proof. intros H. unfold Spec.labels. by rewrite match_brackets_none. Qed.

Lemma elem_of_answer_between raw c : c ∈ Spec.answer_between raw → c ∈ raw.
Proof.
  unfold Spec.answer_between.
  destruct (Spec.index_ci ANSWER raw) as [i|]; [| done].
  intros H%elem_of_trim. by eapply elem_of_drop_list, elem_of_take_list.
Qed.

Lemma elem_of_citations_section raw c :
  c ∈ Spec.citations_section raw → c ∈ raw.
Proof.
  unfold Spec.citations_section.
  destruct (Spec.index_ci CITATIONS raw) as [i|]; [apply elem_of_drop_list |].
  by intros ?%elem_of_nil.
Qed.

(** A response without any closing bracket has no citations: neither
    pass can find a bracketed substring. *)
Theorem no_closing_bracket_no_citations raw :
  RBRACKET ∉ raw → citations (parseResponse raw) = [].
Proof.
  intros H. rewrite parse_citations. unfold Spec.two_pass.
  rewrite !labels_none; [by case_bool_decide | |];
    intros Hc; apply H;
    [by apply elem_of_answer_between | by apply elem_of_citations_section].
Qed.

(** *** Where the markers occur *)

Lemma startsWith_ci_app pat s rest :
  startsWith_ci pat s = true → startsWith_ci pat (s ++ rest) = true.
Proof.
  revert s. induction pat as [|p pat IH]; intros s; [done |].
  destruct s as [|c s]; [done |]. cbn [startsWith_ci app].
  intros [-> H]%andb_prop. by rewrite (IH _ H).
Qed.

Lemma startsWith_ci_nonempty pat s :
  pat ≠ [] → startsWith_ci pat s = true → s ≠ [].
Proof. destruct pat; [done |]. by destruct s. Qed.

(** [Spec.index_ci] finds the first position at which the literal
    occurs. *)
Lemma index_ci_Some pat s j :
  Spec.index_ci pat s = Some j →
  occurs_ci_at pat s j ∧ ∀ k, (k < j)%nat → ¬ occurs_ci_at pat s k.
Proof.
  unfold occurs_ci_at. revert j. induction s as [|c r IH]; intros j.
  - cbn. destruct (startsWith_ci pat []) eqn:E; [| done].
    intros [= <-]. split; [done | intros k; lia].
  - cbn [Spec.index_ci]. destruct (startsWith_ci pat (c :: r)) eqn:E.
    + intros [= <-]. split; [done | intros k; lia].
    + destruct (Spec.index_ci pat r) as [j'|]; [| done].
      intros [= <-]. destruct (IH j' eq_refl) as [H1 H2].
      split; [exact H1 |]. intros [|k] Hk; cbn [drop]; [by rewrite E |].
      apply H2. lia.
Qed.

Lemma index_ci_None pat s :
  Spec.index_ci pat s = None → ∀ k, ¬ occurs_ci_at pat s k.
Proof.
  unfold occurs_ci_at. induction s as [|c r IH].
  - cbn. destruct (startsWith_ci pat []) eqn:E; [done |].
    intros _ k. rewrite drop_nil. by rewrite E.
  - cbn [Spec.index_ci]. destruct (startsWith_ci pat (c :: r)) eqn:E; [done |].
    destruct (Spec.index_ci pat r) as [j'|] eqn:Hr; [done |].
    intros _ [|k]; cbn [drop]; [by rewrite E | by apply IH].
Qed.

Lemma index_ci_None_intro pat s :
  (∀ k, ¬ occurs_ci_at pat s k) → Spec.index_ci pat s = None.
Proof.
  intros H. destruct (Spec.index_ci pat s) as [j|] eqn:E; [| done].
  destruct (index_ci_Some _ _ _ E) as [Hj _]. by destruct (H j).
Qed.

Lemma occurs_in_infix pat before s after k :
  occurs_ci_at pat s k →
  occurs_ci_at pat (before ++ s ++ after) (length before + k).
Proof.
  unfold occurs_ci_at. intros H. rewrite drop_app_add.
  destruct (decide (k ≤ length s)%nat).
  - rewrite drop_app_le by done. by apply startsWith_ci_app.
  - rewrite drop_ge in H by lia. by destruct pat.
Qed.

Lemma occurs_in_take pat s stop k :
  pat ≠ [] → occurs_ci_at pat (take stop s) k →
  occurs_ci_at pat s k ∧ (k < stop)%nat.
Proof.
  intros Hp H. split.
  - rewrite <- (take_drop stop s).
    apply (occurs_in_infix pat [] (take stop s) (drop stop s) k H).
  - unfold occurs_ci_at in H. destruct (decide (k < stop)%nat); [done |].
    rewrite drop_ge in H by (rewrite length_take; lia).
    by destruct (startsWith_ci_nonempty _ _ Hp H).
Qed.

Lemma occurs_in_trim pat s k :
  occurs_ci_at pat (trim s) k → ∃ k', occurs_ci_at pat s k'.
Proof.
  destruct (trim_split s) as (w1 & w2 & Hs & _). intros H.
  exists (length w1 + k)%nat. rewrite Hs at 1. by apply occurs_in_infix.
Qed.

(** When the response has an [ANSWER:] marker, the parsed answer holds
    no [CITATIONS:] marker, in any letter case: the citations section
    never leaks into the answer. *)
Theorem answer_excludes_citations raw :
  is_Some (Spec.index_ci ANSWER raw) →
  Spec.index_ci CITATIONS (answer (parseResponse raw)) = None.
Proof.
  intros [i Hi]. rewrite parse_answer. unfold Spec.answer_between.
  rewrite Hi. apply index_ci_None_intro. intros k [k' Hk]%occurs_in_trim.
  apply occurs_in_take in Hk as [Hk Hlt]; [| done].
  set (rest := drop (i + length ANSWER) raw) in *.
  destruct (Spec.index_ci CITATIONS rest) as [j|] eqn:E.
  - destruct (index_ci_Some _ _ _ E) as [_ Hmin]. by apply (Hmin k').
  - by apply (index_ci_None _ _ E k').
Qed.

End ParsedParts.

Lemma answer_excludes_citations_witness :
  Spec.index_ci CITATIONS
    (answer (parseResponse (lit "Answer: 42 [Section 2] citations: [Section 2]")))
  = None.
Proof.
  apply (answer_excludes_citations
           (lit "Answer: 42 [Section 2] citations: [Section 2]")).
  exists 0%nat. reflexivity.
Defined.

Lemma no_closing_bracket_no_citations_witness :
  citations (parseResponse (lit "ANSWER: open [ only CITATIONS: none")) = [].
Proof.
  apply (no_closing_bracket_no_citations
           (lit "ANSWER: open [ only CITATIONS: none")).
  apply (bool_decide_unpack _). by vm_compute.
Defined.

(** ** Parsing a well-formed response *)

Section RoundTrip.

Implicit Types s pat x y w : jsstring.

Lemma trimStart_app_nonblank s w :
  trimStart s ≠ [] → trimStart (s ++ w) = trimStart s ++ w.
Proof.
  induction s as [|c r IH]; cbn [trimStart app]; [done |].
  destruct (isWhiteSpace c); [apply IH | done].
Qed.

Lemma trim_app_blank_r s w : blankString w → trim (s ++ w) = trim s.
Proof.
  intros Hw. unfold trim. destruct (trimStart s) as [|c r] eqn:E.
  - apply trimStart_nil in E.
    rewrite trimStart_blank; [done |]. by apply Forall_app.
  - rewrite trimStart_app_nonblank by by rewrite E.
    rewrite E. by apply trimEnd_app_blank.
Qed.

(** A character that no character of the pattern folds to cannot be
    inside a match: a match that starts before it ends before it. *)
Lemma startsWith_ci_before pat x c y :
  Forall (λ p, canonicalize p ≠ canonicalize c) pat →
  startsWith_ci pat (x ++ c :: y) = true → startsWith_ci pat x = true.
Proof.
  intros Hp. revert x. induction Hp as [|p pat Hpc _ IH]; intros x; [done |].
  destruct x as [|d x]; cbn [startsWith_ci app].
  - intros [H%N.eqb_eq _]%andb_prop. done.
  - intros [-> H]%andb_prop. by rewrite (IH _ H).
Qed.

Lemma index_ci_app_separator pat x c y :
  pat ≠ [] →
  Forall (λ p, canonicalize p ≠ canonicalize c) pat →
  Spec.index_ci pat x = None →
  Spec.index_ci pat (x ++ c :: y)
  = (λ j, length x + 1 + j)%nat <$> Spec.index_ci pat y.
Proof.
  intros Hne Hp. induction x as [|d x IH]; intros Hx.
  - cbn [app Spec.index_ci length].
    destruct (startsWith_ci pat (c :: y)) eqn:E.
    + destruct pat as [|p pat]; [done |]. cbn [startsWith_ci] in E.
      apply andb_prop in E as [E%N.eqb_eq _]. by inversion Hp.
    + by destruct (Spec.index_ci pat y).
  - cbn [Spec.index_ci] in Hx.
    destruct (startsWith_ci pat (d :: x)) eqn:E; [done |].
    destruct (Spec.index_ci pat x) as [j|] eqn:Ex; [done |].
    cbn [app Spec.index_ci].
    destruct (startsWith_ci pat (d :: x ++ c :: y)) eqn:E'.
    + change (d :: x ++ c :: y) with ((d :: x) ++ c :: y) in E'.
      apply startsWith_ci_before in E'; [congruence | done].
    + rewrite IH by done. by destruct (Spec.index_ci pat y).
Qed.

Lemma CITATIONS_no_newline :
  Forall (λ p, canonicalize p ≠ canonicalize 0x0a) CITATIONS.
Proof. repeat constructor; by vm_compute. Qed.

(** *** Scanning a list of bracketed labels *)

Lemma span_not_close_label l rest :
  RBRACKET ∉ l →
  span_not_close (l ++ RBRACKET :: rest) = (l, RBRACKET :: rest).
Proof.
  induction l as [|c l IH]; intros Hl; [done |].
  cbn [app span_not_close].
  assert (c ≠ RBRACKET) as Hc by (intros ->; apply Hl; left).
  apply N.eqb_neq in Hc. rewrite Hc.
  rewrite IH; [done |]. intros H. apply Hl. by right.
Qed.

Lemma bracket_scan_skip (x y : jsstring) (k : nat) :
  bracket_scan (length x + k) (x ++ y) = bracket_scan k y.
Proof. induction x as [|c x IH]; [done |]. apply IH. Qed.

Lemma bracket_here_bracketed l rest :
  l ≠ [] → RBRACKET ∉ l →
  bracket_here (bracketed l ++ rest) = Some (bracketed l).
Proof.
  intros Hne Hl. unfold bracketed, bracket_here.
  cbn [app]. rewrite <- app_assoc. cbn [app]. rewrite N.eqb_refl.
  pose proof (span_not_close_label l rest Hl) as Hs.
  destruct (span_not_close _) as [run j]. injection Hs as -> ->.
  by destruct l.
Qed.

Lemma bracket_scan_bracketed l rest :
  l ≠ [] → RBRACKET ∉ l →
  bracket_scan 0 (bracketed l ++ rest) = bracketed l :: bracket_scan 0 rest.
Proof.
  intros Hne Hl.
  assert (bracketed l ++ rest = LBRACKET :: (l ++ [RBRACKET]) ++ rest) as E
    by done.
  rewrite E at 1. cbn [bracket_scan]. rewrite <- E.
  rewrite bracket_here_bracketed by done. f_equal.
  replace (Init.Nat.pred (length (bracketed l)))
    with (length (l ++ [RBRACKET]) + 0)%nat
    by (unfold bracketed; cbn [length]; lia).
  apply bracket_scan_skip.
Qed.

Lemma match_brackets_joined (labels : list jsstring) :
  Forall cleanLabel labels →
  match_brackets (join (lit " ") (bracketed <$> labels)) = bracketed <$> labels.
Proof.
  unfold match_brackets.
  induction 1 as [|l labels (Hne & _ & _ & Hr) Hall IH]; [done |].
  destruct labels as [|l' labels].
  - cbn [fmap list_fmap join]. rewrite <- (app_nil_r (bracketed l)) at 1.
    by rewrite bracket_scan_bracketed.
  - change (join (lit " ") (bracketed <$> l :: l' :: labels))
      with (bracketed l ++ lit " " ++ join (lit " ") (bracketed <$> l' :: labels)).
    rewrite bracket_scan_bracketed by done.
    rewrite (fmap_cons bracketed l). f_equal.
    etrans; [| exact IH]. apply (match_brackets_blank_app (lit " ")).
    by repeat constructor.
Qed.

Lemma filter_all {A} (P : A → Prop) `{∀ a, Decision (P a)} (l : list A) :
  Forall P l → filter P l = l.
Proof.
  induction 1 as [|a l Ha _ IH]; [done |].
  by rewrite filter_cons_True, IH.
Qed.

Lemma filter_wrapped {A} (P : A → Prop) `{∀ a, Decision (P a)}
    (a b : A) (l : list A) :
  ¬ P a → ¬ P b → filter P (a :: l ++ [b]) = filter P l.
Proof.
  intros Ha Hb. rewrite filter_cons_False by done.
  by rewrite filter_app, filter_cons_False, filter_nil, app_nil_r.
Qed.

Lemma strip_brackets_clean l :
  LBRACKET ∉ l → RBRACKET ∉ l → strip_brackets l = l.
Proof.
  intros Hl Hr. apply filter_all, Forall_forall.
  intros c Hc. split; intros ->; tauto.
Qed.

Lemma label_bracketed l : cleanLabel l → Spec.label (bracketed l) = l.
Proof.
  intros (_ & Ht & Hl & Hr). unfold Spec.label.
  assert (strip_brackets (bracketed l) = strip_brackets l) as ->
    by (apply filter_wrapped; tauto).
  by rewrite strip_brackets_clean.
Qed.

Lemma first_occurrences_NoDup_id (l : list jsstring) :
  NoDup l → Spec.first_occurrences l = l.
Proof.
  induction 1 as [|x l Hx Hl IH]; [done |]. cbn [Spec.first_occurrences].
  rewrite IH. f_equal. apply filter_all, Forall_forall.
  by intros y Hy ->.
Qed.

Lemma labels_joined (labels : list jsstring) w :
  blankString w → Forall cleanLabel labels → NoDup labels →
  Spec.labels (w ++ join (lit " ") (bracketed <$> labels)) = labels.
Proof.
  intros Hw Hall Hnd. unfold Spec.labels.
  rewrite match_brackets_blank_app, match_brackets_joined by done.
  rewrite <- list_fmap_compose.
  assert (Spec.label ∘ bracketed <$> labels = labels) as ->.
  { clear Hnd. induction Hall as [|l labels Hl _ IH]; [done |].
    rewrite fmap_cons, IH.
    change ((Spec.label ∘ bracketed) l) with (Spec.label (bracketed l)).
    by rewrite label_bracketed. }
  rewrite filter_all; [by apply first_occurrences_NoDup_id |].
  eapply Forall_impl; [exact Hall |]. by intros l (? & _).
Qed.

Lemma trim_padded w1 answer w2 :
  blankString w1 → blankString w2 → trim answer = answer →
  trim (w1 ++ answer ++ w2) = answer.
Proof.
  intros H1 H2 Ha. by rewrite trim_app_blank_l, trim_app_blank_r.
Qed.

Lemma startsWith_ci_self pat rest : startsWith_ci pat (pat ++ rest) = true.
Proof.
  induction pat as [|p pat IH]; [done |]. cbn [app startsWith_ci].
  by rewrite N.eqb_refl, IH.
Qed.

Lemma index_ci_here pat s :
  startsWith_ci pat s = true → Spec.index_ci pat s = Some 0%nat.
Proof. intros H. destruct s; cbn [Spec.index_ci]; by rewrite H. Qed.

(** Characters that the first character of the pattern does not fold
    to are passed over. *)
Lemma index_ci_skip p pat before s :
  Forall (λ c, canonicalize p ≠ canonicalize c) before →
  Spec.index_ci (p :: pat) (before ++ s)
  = (λ j, length before + j)%nat <$> Spec.index_ci (p :: pat) s.
Proof.
  induction 1 as [|c before Hc _ IH].
  - cbn [app length]. by destruct (Spec.index_ci (p :: pat) s).
  - cbn [app Spec.index_ci startsWith_ci].
    apply N.eqb_neq in Hc. rewrite Hc. cbn [andb]. rewrite IH.
    by destruct (Spec.index_ci (p :: pat) s).
Qed.

Lemma index_ci_CITATIONS_skip before s :
  Forall (λ c, canonicalize 0x43 ≠ canonicalize c) before →
  Spec.index_ci CITATIONS (before ++ s)
  = (λ j, length before + j)%nat <$> Spec.index_ci CITATIONS s.
Proof. apply (index_ci_skip 0x43 (lit "ITATIONS:")). Qed.

Lemma formatted_parts answer_ (labels : list jsstring) :
  formatted answer_ labels
  = ANSWER ++ [0x20] ++ answer_ ++ [0x0a] ++ CITATIONS ++ [0x20]
      ++ join (lit " ") (bracketed <$> labels).
Proof. reflexivity. Qed.

(** A response in the requested format is parsed back to its parts: if
    the answer is trimmed and has no [CITATIONS:] marker of its own, and
    the labels are non-empty, trimmed, free of brackets, distinct and at
    least one, then parsing [formatted answer labels] yields exactly that
    answer and those labels in their order. *)
Theorem parse_formatted (answer_ : jsstring) (labels : list jsstring) :
  trim answer_ = answer_ →
  Spec.index_ci CITATIONS answer_ = None →
  Forall cleanLabel labels → NoDup labels → labels ≠ [] →
  parseResponse (formatted answer_ labels)
  = {| answer := answer_; citations := labels |}.
Proof.
  intros Ha Hc Hall Hnd Hne. rewrite formatted_parts.
  set (tail := join (lit " ") (bracketed <$> labels)).
  assert (Spec.index_ci CITATIONS
            (answer_ ++ [0x0a] ++ CITATIONS ++ [0x20] ++ tail)
          = Some (length answer_ + 1 + 0)%nat) as Hidx.
  { change (answer_ ++ [0x0a] ++ CITATIONS ++ [0x20] ++ tail)
      with (answer_ ++ 0x0a :: (CITATIONS ++ [0x20] ++ tail)).
    rewrite index_ci_app_separator;
      [| done | apply CITATIONS_no_newline | done].
    by rewrite (index_ci_here _ _ (startsWith_ci_self CITATIONS _)). }
  assert (answer (parseResponse
                    (ANSWER ++ [0x20] ++ answer_ ++ [0x0a] ++ CITATIONS
                     ++ [0x20] ++ tail)) = answer_) as Hanswer.
  { rewrite parse_answer. unfold Spec.answer_between.
    rewrite (index_ci_here _ _ (startsWith_ci_self ANSWER _)). cbv zeta.
    rewrite drop_app_length' by done.
    rewrite (index_ci_CITATIONS_skip [0x20])
      by (repeat constructor; by vm_compute).
    rewrite Hidx. cbn [fmap option_fmap option_map default].
    replace ([0x20] ++ answer_ ++ [0x0a] ++ CITATIONS ++ [0x20] ++ tail)
      with (([0x20] ++ answer_ ++ [0x0a]) ++ CITATIONS ++ [0x20] ++ tail)
      by by rewrite <- !app_assoc.
    unfold id. rewrite take_app_length'
      by (rewrite !length_app; cbn [length]; lia).
    apply trim_padded; [by repeat constructor | by repeat constructor | done]. }
  assert (Spec.citations_section
            (ANSWER ++ [0x20] ++ answer_ ++ [0x0a] ++ CITATIONS
             ++ [0x20] ++ tail) = [0x20] ++ tail) as Hsection.
  { unfold Spec.citations_section.
    replace (ANSWER ++ [0x20] ++ answer_ ++ [0x0a] ++ CITATIONS ++ [0x20] ++ tail)
      with ((ANSWER ++ [0x20])
            ++ answer_ ++ [0x0a] ++ CITATIONS ++ [0x20] ++ tail)
      by by rewrite <- !app_assoc.
    rewrite (index_ci_CITATIONS_skip (ANSWER ++ [0x20]))
      by (repeat constructor; by vm_compute).
    rewrite Hidx. cbn [fmap option_fmap option_map].
    replace ((ANSWER ++ [0x20])
             ++ answer_ ++ [0x0a] ++ CITATIONS ++ [0x20] ++ tail)
      with (((ANSWER ++ [0x20]) ++ answer_ ++ [0x0a] ++ CITATIONS)
            ++ [0x20] ++ tail)
      by by rewrite <- !app_assoc.
    apply drop_app_length'. rewrite !length_app. cbn [length]. lia. }
  assert (Spec.labels ([0x20] ++ tail) = labels) as Hlabels
    by (apply labels_joined; [by repeat constructor | done | done]).
  assert (∀ r, r = {| answer := answer r; citations := citations r |}) as Heta
    by by intros [].
  rewrite (Heta (parseResponse _)), Hanswer, parse_citations.
  unfold Spec.two_pass. rewrite Hsection, Hlabels.
  by rewrite bool_decide_eq_false_2.
Qed.

End RoundTrip.

Lemma parse_formatted_witness :
  parseResponse
    (formatted (lit "The sky is blue [Section 1].")
       [ lit "Section 1"; lit "Paragraph 2" ])
  = {| answer := lit "The sky is blue [Section 1].";
       citations := [ lit "Section 1"; lit "Paragraph 2" ] |}.
Proof.
  apply (parse_formatted (lit "The sky is blue [Section 1].")
           [ lit "Section 1"; lit "Paragraph 2" ]).
  - by vm_compute.
  - by vm_compute.
  - repeat constructor; try (by vm_compute);
      intros H; apply (bool_decide_pack _) in H; by vm_compute in H.
  - apply (bool_decide_unpack _). by vm_compute.
  - discriminate.
Defined.

(** ** The six routes together *)

Section Routes.

Implicit Types st : Sessions.

Lemma lift_fst out : reply_status (lift out).1 = status out.1.
Proof. done. Qed.

Lemma chat_cases env req st :
  (chatWithDocument env req st).2 = st
  ∨ ∃ session answer_,
      st !! req_sessionId req = Some session
      ∧ (chatWithDocument env req st).2
        = <[req_sessionId req :=
              pushExchange (req_question req) answer_ session]> st.
Proof.
  destruct req as [sid q].
  destruct (chat_step env sid q st) as
    [(_ & _ & H)|(s & a & c & Hs & _ & _ & H)]; [by left |].
  right. by exists s, a.
Qed.

Lemma summarize_store env sessionId st :
  (summarizeDocument env sessionId st).2 = st.
Proof.
  unfold summarizeDocument. destruct (negb _); [done |].
  destruct (st !! sessionId); [| done]. by destruct (unusable _).
Qed.

Lemma simplify_store env sessionId text_ st :
  (simplifyTextSection env sessionId text_ st).2 = st.
Proof.
  unfold simplifyTextSection. destruct (_ || _); [done |].
  destruct (st !! sessionId); [| done]. by destruct (unusable _).
Qed.

Lemma export_store env sessionId st : (exportNotes env sessionId st).2 = st.
Proof.
  unfold exportNotes. destruct (negb _); [done |].
  by destruct (st !! sessionId).
Qed.

Lemma delete_cases unlink fileId st :
  (deleteDocument unlink fileId st).2 = st
  ∨ (deleteDocument unlink fileId st).2 = delete fileId st.
Proof.
  unfold deleteDocument. destruct (negb _); [by left |].
  destruct (st !! fileId); [by right | by left].
Qed.

Lemma upload_cases w uuid now (file : option Upload.StoredFile) st :
  (uploadDocument w uuid now file st).2 = st
  ∨ ∃ session,
      (uploadDocument w uuid now file st).2 = <[uuid := session]> st
      ∧ sessionId session = uuid
      ∧ conversationHistory session = []
      ∧ trim (text session) ≠ [].
Proof.
  unfold uploadDocument. destruct file as [file|]; [| by left].
  destruct (processDocument_cases w (Upload.st_path file)
              (Upload.st_mimetype file)) as [[t [Ht ->]]|[m ->]];
    [| by left].
  right. eexists. split; [reflexivity |]. split; [done |]. split; [done |].
  cbn [text pd_text]. by rewrite trim_idem.
Qed.

Lemma postUpload_cases w uuid now file st :
  (postUpload w uuid now file st).2 = st
  ∨ ∃ session,
      (postUpload w uuid now file st).2 = <[uuid := session]> st
      ∧ sessionId session = uuid
      ∧ conversationHistory session = []
      ∧ trim (text session) ≠ [].
Proof.
  unfold postUpload. destruct (Upload.uploadMiddleware now file); [by left |].
  apply upload_cases.
Qed.

(** Sessions are independent: a request leaves every session other than
    the one it names exactly as it was. *)
Theorem route_frame (request : Request) st (other : jsstring) :
  other ≠ target request →
  (route request st).2 !! other = st !! other.
Proof.
  intros Hne. destruct request as [w uuid now [file|]|env req|env sid|env sid t
                                   |env sid|unlink fid]; cbn [route target] in *.
  - cbn [lift snd].
    destruct (postUpload_cases w uuid now file st) as [->|(s & -> & _)];
      [done | by rewrite lookup_insert_ne].
  - cbn [lift snd].
    destruct (upload_cases w uuid now None st) as [->|(s & -> & _)];
      [done | by rewrite lookup_insert_ne].
  - cbn [lift snd].
    destruct (chat_cases env req st) as [->|(s & a & _ & ->)];
      [done | by rewrite lookup_insert_ne].
  - by rewrite summarize_store.
  - by rewrite simplify_store.
  - cbn [lift snd]. by rewrite export_store.
  - destruct (delete_cases unlink fid st) as [->| ->];
      [done | by rewrite lookup_delete_ne].
Qed.

(** *** The invariant of the store *)

Lemma roleAt_SS i : roleAt (S (S i)) = roleAt i.
Proof. done. Qed.

Lemma pushExchange_invariant id question answer_ session :
  sessionInvariant id session →
  sessionInvariant id (pushExchange question answer_ session).
Proof.
  intros (Hid & Ht & [k Hk] & Hroles). unfold sessionInvariant.
  cbn [pushExchange sessionId text conversationHistory].
  split; [done |]. split; [done |]. split.
  - exists (S k). rewrite !length_app. cbn [length]. lia.
  - intros i turn. rewrite <- app_assoc. cbn [app].
    intros [H|[Hi H]]%lookup_app_Some; [by apply Hroles |].
    assert (roleAt (length (conversationHistory session)) = user) as Hu.
    { rewrite Hk. unfold roleAt.
      replace (2 * k)%nat with (0 + 2 * k)%nat by lia.
      by rewrite Nat.even_add_mul_2. }
    assert (roleAt (S (length (conversationHistory session))) = model) as Hm.
    { rewrite Hk. unfold roleAt.
      replace (S (2 * k))%nat with (1 + 2 * k)%nat by lia.
      by rewrite Nat.even_add_mul_2. }
    destruct (i - length (conversationHistory session))%nat as [|[|n]] eqn:E;
      cbn in H; [| | done]; injection H as <-; cbn [role].
    + replace i with (length (conversationHistory session)) by lia. by rewrite Hu.
    + replace i with (S (length (conversationHistory session))) by lia.
      by rewrite Hm.
Qed.

Lemma route_invariant request st :
  map_Forall sessionInvariant st →
  map_Forall sessionInvariant (route request st).2.
Proof.
  intros Hst.
  assert (∀ uuid session,
            sessionId session = uuid → conversationHistory session = [] →
            trim (text session) ≠ [] →
            map_Forall sessionInvariant (<[uuid := session]> st)) as Hnew.
  { intros uuid s Hid Hh Ht. apply map_Forall_insert_2; [| done].
    unfold sessionInvariant. rewrite Hh. repeat split; try done.
    by exists 0%nat. }
  destruct request as [w uuid now [file|]|env req|env sid|env sid t
                       |env sid|unlink fid]; cbn [route].
  - cbn [lift snd].
    destruct (postUpload_cases w uuid now file st)
      as [->|(s & -> & ? & ? & ?)]; [done | by apply Hnew].
  - cbn [lift snd].
    destruct (upload_cases w uuid now None st)
      as [->|(s & -> & ? & ? & ?)]; [done | by apply Hnew].
  - cbn [lift snd].
    destruct (chat_cases env req st) as [->|(s & a & Hs & ->)]; [done |].
    apply map_Forall_insert_2; [| done].
    apply pushExchange_invariant. by apply (Hst _ _ Hs).
  - by rewrite summarize_store.
  - by rewrite simplify_store.
  - cbn [lift snd]. by rewrite export_store.
  - destruct (delete_cases unlink fid st) as [->| ->]; [done |].
    by apply map_Forall_delete.
Qed.

Lemma serve_invariant requests st :
  map_Forall sessionInvariant st →
  map_Forall sessionInvariant (serve requests st).2.
Proof.
  revert st. induction requests as [|request requests IH]; intros st Hst;
    [done |].
  cbn [serve]. pose proof (route_invariant request st Hst) as H.
  destruct (route request st) as [r st1]. cbn [snd] in H.
  specialize (IH st1 H). by destruct (serve requests st1).
Qed.

(** Whatever requests the server has handled since it started, in
    whatever order and with whatever outcomes, every stored session is
    stored under its own identifier, has a text that is not blank, and
    has a history of even length in which every even position holds a
    [user] turn and every odd position a [model] turn. *)
Theorem store_invariant (requests : list Request) :
  map_Forall sessionInvariant (serve requests ∅).2.
Proof. apply serve_invariant, map_Forall_empty. Qed.

End Routes.

Lemma route_frame_witness :
  (route (DeleteDocument (λ _, Throws OtherValue) (lit "3f2b"))
     (<[ lit "77c1" := sampleSession ]> sampleSessions)).2 !! lit "77c1"
  = Some sampleSession.
Proof.
  rewrite (route_frame (DeleteDocument (λ _, Throws OtherValue) (lit "3f2b"))
             (<[ lit "77c1" := sampleSession ]> sampleSessions) (lit "77c1"));
    [by vm_compute | by vm_compute].
Defined.

Section Lifecycle.

Implicit Types st : Sessions.

Lemma unknown_routes st (id question text_ : jsstring)
    (env : Env) (unlink : jsstring → outcome unit) :
  id ≠ [] → st !! id = None → question ≠ [] → text_ ≠ [] →
  Forall (λ request, reply_status (route request st).1 = 404)
    [ PostChat env {| req_sessionId := id; req_question := question |};
      PostSummarize env id;
      PostSimplify env id text_;
      GetExport env id;
      DeleteDocument unlink id ].
Proof.
  intros Hid Hst Hq Ht. repeat constructor; cbn [route lift fst snd].
  - unfold chatWithDocument. cbn [req_sessionId req_question].
    by rewrite (truthy_true _ Hid), (truthy_true _ Hq), Hst.
  - unfold summarizeDocument. by rewrite (truthy_true _ Hid), Hst.
  - unfold simplifyTextSection.
    by rewrite (truthy_true _ Hid), (truthy_true _ Ht), Hst.
  - unfold exportNotes. by rewrite (truthy_true _ Hid), Hst.
  - unfold deleteDocument. by rewrite (truthy_true _ Hid), Hst.
Qed.

Lemma delete_stored st (id : jsstring) (session : DocumentSession)
    (unlink : jsstring → outcome unit) :
  id ≠ [] → st !! id = Some session →
  route (DeleteDocument unlink id) st
  = ({| reply_status := 200;
        reply_body := MessageResponse (lit "Document deleted successfully") |},
     delete id st).
Proof.
  intros Hid Hs. cbn [route]. unfold deleteDocument.
  by rewrite (truthy_true _ Hid), Hs.
Qed.

(** A session identifier that the store does not hold is answered with
    status 404 by the chat, summarize, simplify, export and delete routes
    alike, and the store stays as it is. *)
Theorem unknown_session_not_found st (id question text_ : jsstring)
    (env : Env) (unlink : jsstring → outcome unit) :
  id ≠ [] → st !! id = None → question ≠ [] → text_ ≠ [] →
  Forall (λ request,
            reply_status (route request st).1 = 404
            ∧ (route request st).2 = st)
    [ PostChat env {| req_sessionId := id; req_question := question |};
      PostSummarize env id;
      PostSimplify env id text_;
      GetExport env id;
      DeleteDocument unlink id ].
Proof.
  intros Hid Hst Hq Ht. repeat constructor; cbn [route lift fst snd].
  - unfold chatWithDocument. cbn [req_sessionId req_question].
    by rewrite (truthy_true _ Hid), (truthy_true _ Hq), Hst.
  - unfold chatWithDocument. cbn [req_sessionId req_question].
    by rewrite (truthy_true _ Hid), (truthy_true _ Hq), Hst.
  - unfold summarizeDocument. by rewrite (truthy_true _ Hid), Hst.
  - apply summarize_store.
  - unfold simplifyTextSection.
    by rewrite (truthy_true _ Hid), (truthy_true _ Ht), Hst.
  - apply simplify_store.
  - unfold exportNotes. by rewrite (truthy_true _ Hid), Hst.
  - apply export_store.
  - unfold deleteDocument. by rewrite (truthy_true _ Hid), Hst.
  - unfold deleteDocument. by rewrite (truthy_true _ Hid), Hst.
Qed.

(** Deleting a stored session succeeds whether or not the file could be
    removed from disk, takes exactly that session out of the store, and
    from then on the identifier is unknown to every route. *)
Theorem delete_removes st (id : jsstring) (session : DocumentSession)
    (unlink : jsstring → outcome unit) :
  id ≠ [] → st !! id = Some session →
  route (DeleteDocument unlink id) st
  = ({| reply_status := 200;
        reply_body := MessageResponse (lit "Document deleted successfully") |},
     delete id st)
  ∧ ∀ env question text_ unlink',
      question ≠ [] → text_ ≠ [] →
      Forall (λ request,
                reply_status (route request (delete id st)).1 = 404)
        [ PostChat env {| req_sessionId := id; req_question := question |};
          PostSummarize env id;
          PostSimplify env id text_;
          GetExport env id;
          DeleteDocument unlink' id ].
Proof.
  intros Hid Hs. split; [by apply (delete_stored st id session) |].
  intros env question text_ unlink' Hq Ht.
  by apply unknown_routes; [| apply lookup_delete_eq | |].
Qed.

(** Uploading and then deleting leaves no trace: when the fresh
    identifier is not in use, a successful upload followed by the
    deletion of that identifier gives back the store as it was. *)
Theorem upload_then_delete w (uuid : jsstring) (now : N)
    (file : Upload.IncomingFile) st (unlink : jsstring → outcome unit) :
  uuid ≠ [] → st !! uuid = None →
  status (postUpload w uuid now file st).1 = 200 →
  (route (DeleteDocument unlink uuid) (postUpload w uuid now file st).2).2 = st
  ∧ reply_status
      (route (DeleteDocument unlink uuid) (postUpload w uuid now file st).2).1
    = 200.
Proof.
  intros Hid Hfresh Hok.
  assert (∃ session, (postUpload w uuid now file st).2 = <[uuid := session]> st)
    as [session Hst].
  { unfold postUpload in *.
    destruct (Upload.uploadMiddleware now file) as [err|stored].
    - by destruct err as [code m|m]; cbn in Hok;
        repeat (case_bool_decide; cbn in Hok).
    - destruct (uploadDocument_creates w uuid now (Some stored) st Hok)
        as (s & Hs & _). by exists s. }
  rewrite Hst.
  rewrite (delete_stored (<[uuid := session]> st) uuid session unlink Hid)
    by by rewrite lookup_insert_eq.
  cbn [fst snd]. split; [| done].
  by rewrite delete_insert_eq, delete_id.
Qed.

(** The number of active sessions changes only through uploads and
    deletions: the four other routes keep it, a deletion that succeeds
    lowers it by one, and a successful upload under an unused identifier
    raises it by one. *)
Theorem active_sessions_count (request : Request) st :
  let out := route request st in
  match request with
  | PostUpload _ uuid _ _ =>
      if (reply_status out.1 =? 200) && bool_decide (st !! uuid = None)
      then getActiveSessions out.2 = S (getActiveSessions st)
      else if reply_status out.1 =? 200
      then getActiveSessions out.2 = getActiveSessions st
      else out.2 = st
  | DeleteDocument _ _ =>
      if reply_status out.1 =? 200
      then S (getActiveSessions out.2) = getActiveSessions st
      else out.2 = st
  | _ => getActiveSessions out.2 = getActiveSessions st
  end.
Proof.
  unfold getActiveSessions.
  assert (∀ w uuid now stored,
            let out := uploadDocument w uuid now stored st in
            if (status out.1 =? 200) && bool_decide (st !! uuid = None)
            then size out.2 = S (size st)
            else if status out.1 =? 200 then size out.2 = size st
            else out.2 = st) as Hupload.
  { intros w uuid now stored. unfold uploadDocument.
    destruct stored as [stored|]; [| done].
    destruct (negb _); [done |]. cbn [fst snd status].
    change (200 =? 200) with true. cbn [andb]. case_bool_decide as Hfresh.
    - by rewrite map_size_insert_None.
    - apply map_size_insert_Some. by apply not_eq_None_Some. }
  destruct request as [w uuid now [file|]|env req|env sid|env sid t
                       |env sid|unlink fid]; cbn [route lift fst snd reply
                                                   reply_status].
  - unfold postUpload. destruct (Upload.uploadMiddleware now file) as [e|stored].
    + destruct e as [code m|m]; cbn; by repeat case_bool_decide.
    + apply Hupload.
  - apply Hupload.
  - destruct (chat_cases env req st) as [->|(s & a & Hs & ->)]; [done |].
    by apply map_size_insert_Some.
  - by rewrite summarize_store.
  - by rewrite simplify_store.
  - by rewrite export_store.
  - unfold deleteDocument. destruct (negb _); [done |].
    destruct (st !! fid) as [s|] eqn:Hs; [| done]. cbn.
    rewrite map_size_delete_Some by done.
    assert (size st ≠ 0%nat) as Hsize.
    { intros H%map_size_empty_iff. subst st. by rewrite lookup_empty in Hs. }
    lia.
Qed.

(** No request other than an upload or a deletion removes a session or
    touches what was stored at its creation: the session is still there
    afterwards with the same name, path, type, text and date, and its
    earlier history is a prefix of its new history. *)
Theorem history_only_grows (request : Request) st (id : jsstring)
    (session : DocumentSession) :
  replaces request = false → st !! id = Some session →
  ∃ session',
    (route request st).2 !! id = Some session'
    ∧ sessionId session' = sessionId session
    ∧ filename session' = filename session
    ∧ filepath session' = filepath session
    ∧ mimetype session' = mimetype session
    ∧ text session' = text session
    ∧ uploadedAt session' = uploadedAt session
    ∧ conversationHistory session `prefix_of` conversationHistory session'.
Proof.
  intros Hr Hs.
  assert ((route request st).2 = st → ∃ session',
            (route request st).2 !! id = Some session'
            ∧ sessionId session' = sessionId session
            ∧ filename session' = filename session
            ∧ filepath session' = filepath session
            ∧ mimetype session' = mimetype session
            ∧ text session' = text session
            ∧ uploadedAt session' = uploadedAt session
            ∧ conversationHistory session `prefix_of` conversationHistory session')
    as Hsame by (intros ->; by exists session).
  destruct request as [w uuid now file|env req|env sid|env sid t
                       |env sid|unlink fid]; try done.
  - destruct (chat_cases env req st) as [H|(s & a & Hs' & H)];
      [apply Hsame; exact H |].
    cbn [route lift snd]. rewrite H.
    destruct (decide (req_sessionId req = id)) as [<-|Hne].
    + rewrite Hs in Hs'. injection Hs' as <-.
      exists (pushExchange (req_question req) a session).
      rewrite lookup_insert_eq. repeat split; try done.
      cbn [pushExchange conversationHistory]. rewrite <- app_assoc.
      by apply prefix_app_r.
    + exists session. by rewrite lookup_insert_ne.
  - apply Hsame, summarize_store.
  - apply Hsame, simplify_store.
  - apply Hsame. cbn [route lift snd]. apply export_store.
Qed.

End Lifecycle.

Lemma unknown_session_not_found_witness :
  Forall (λ request,
            reply_status (route request sampleSessions).1 = 404
            ∧ (route request sampleSessions).2 = sampleSessions)
    [ PostChat (answering (Returns None))
        {| req_sessionId := lit "never-issued"; req_question := lit "Why?" |};
      PostSummarize (answering (Returns None)) (lit "never-issued");
      PostSimplify (answering (Returns None)) (lit "never-issued") (lit "x");
      GetExport (answering (Returns None)) (lit "never-issued");
      DeleteDocument (λ _, Returns ()) (lit "never-issued") ].
Proof.
  apply (unknown_session_not_found sampleSessions (lit "never-issued")
           (lit "Why?") (lit "x") (answering (Returns None)) (λ _, Returns ()));
    by vm_compute.
Defined.

Lemma delete_removes_witness :
  route (DeleteDocument (λ _, Throws (ErrorObject (lit "ENOENT"))) (lit "3f2b"))
    sampleSessions
  = ({| reply_status := 200;
        reply_body := MessageResponse (lit "Document deleted successfully") |},
     delete (lit "3f2b") sampleSessions).
Proof.
  apply (delete_removes sampleSessions (lit "3f2b") sampleSession
           (λ _, Throws (ErrorObject (lit "ENOENT"))));
    by vm_compute.
Defined.

Lemma upload_then_delete_witness :
  (route (DeleteDocument (λ _, Returns ()) (lit "9a0c"))
     (postUpload (sampleWorld (lit "Hello.")) (lit "9a0c") 1700000000000
        {| Upload.originalname := lit "notes.txt";
           Upload.in_mimetype := lit "text/plain";
           Upload.size := 6 |} sampleSessions).2).2
  = sampleSessions.
Proof.
  apply (upload_then_delete (sampleWorld (lit "Hello.")) (lit "9a0c")
           1700000000000
           {| Upload.originalname := lit "notes.txt";
              Upload.in_mimetype := lit "text/plain";
              Upload.size := 6 |} sampleSessions (λ _, Returns ()));
    by vm_compute.
Defined.

Lemma history_only_grows_witness :
  ∃ session',
    (route (PostChat (answering (Returns (Some (lit "ANSWER: Blue."))))
              {| req_sessionId := lit "3f2b"; req_question := lit "Colour?" |})
       sampleSessions).2 !! lit "3f2b" = Some session'
    ∧ text session' = text sampleSession
    ∧ conversationHistory sampleSession `prefix_of` conversationHistory session'.
Proof.
  destruct (history_only_grows
              (PostChat (answering (Returns (Some (lit "ANSWER: Blue."))))
                 {| req_sessionId := lit "3f2b"; req_question := lit "Colour?" |})
              sampleSessions (lit "3f2b") sampleSession)
    as (s' & H1 & _ & _ & _ & _ & H2 & _ & H3); [reflexivity | by vm_compute |].
  by exists s'.
Defined.

(** ** Replies that carry text *)

Section TextReplies.

Variable env : Env.

Implicit Types st : Sessions.

Lemma complete_data messages context d :
  data (complete (create env) messages context) = Some d →
  d ≠ [] →
  create env messages = Returns (Some d).
Proof.
  unfold complete.
  destruct (create env messages) as [[[|c0 c]|]|e]; cbn; intros H Hne;
    try done; by injection H as <-.
Qed.

Lemma unusable_false (result : AIServiceResult jsstring) :
  unusable result = false →
  ∃ d, success result = true ∧ data result = Some d ∧ d ≠ [].
Proof.
  unfold unusable. destruct (success result); [| done].
  destruct (data result) as [[|c d]|]; try done. intros _. by eexists.
Qed.

(** The summarize and simplify routes answer 200 only with a non-empty
    text, and that text is what the model returned for the prompt built
    from the stored document (and the text to simplify): an empty or
    missing completion is never passed on as a success. *)
Theorem text_replies_need_content (sessionId text_ : jsstring) st :
  (reply_status (summarizeDocument env sessionId st).1 = 200 →
   ∃ session summary,
     st !! sessionId = Some session
     ∧ summary ≠ []
     ∧ create env
         (twoMessages
            (lit "You are a helpful AI assistant that creates clear and concise document summaries.")
            (summaryPrompt (text session)))
       = Returns (Some summary)
     ∧ reply_body (summarizeDocument env sessionId st).1
       = SummarizeResponse summary)
  ∧ (reply_status (simplifyTextSection env sessionId text_ st).1 = 200 →
     ∃ session simplified,
       st !! sessionId = Some session
       ∧ simplified ≠ []
       ∧ create env
           (twoMessages
              (lit "You are a helpful AI assistant that explains complex text in simple, easy-to-understand language.")
              (simplifyPrompt text_ (text session)))
         = Returns (Some simplified)
       ∧ reply_body (simplifyTextSection env sessionId text_ st).1
         = SimplifyResponse simplified).
Proof.
  split.
  - unfold summarizeDocument. destruct (negb _); [done |].
    destruct (st !! sessionId) as [session|]; [| done].
    destruct (unusable _) eqn:Hu; [done |]. intros _.
    destruct (unusable_false _ Hu) as (d & _ & Hd & Hne).
    exists session, d. split; [done |]. split; [done |]. rewrite Hd.
    split; [| done]. unfold generateSummary in Hd.
    repeat (match type of Hd with
            | context [if ?b then _ else _] => destruct b; [done |]
            end).
    by apply complete_data in Hd.
  - unfold simplifyTextSection. destruct (_ || _); [done |].
    destruct (st !! sessionId) as [session|]; [| done].
    destruct (unusable _) eqn:Hu; [done |]. intros _.
    destruct (unusable_false _ Hu) as (d & _ & Hd & Hne).
    exists session, d. split; [done |]. split; [done |]. rewrite Hd.
    split; [| done]. unfold simplifyText in Hd.
    repeat (match type of Hd with
            | context [if ?b then _ else _] => destruct b; [done |]
            end).
    by apply complete_data in Hd.
Qed.

End TextReplies.

Lemma text_replies_need_content_witness :
  ∃ summary,
    summary ≠ []
    ∧ reply_body
        (summarizeDocument (answering (Returns (Some (lit "A short summary."))))
           (lit "3f2b") sampleSessions).1
      = SummarizeResponse summary.
Proof.
  destruct (text_replies_need_content
              (answering (Returns (Some (lit "A short summary."))))
              (lit "3f2b") (lit "x") sampleSessions) as [H _].
  destruct H as (s & summary & _ & Hne & _ & Hbody); [by vm_compute |].
  by exists summary.
Defined.

(** ** Chatting, then exporting *)

Section ChatThenExport.

Implicit Types st : Sessions.

Lemma chatSequence_session sessionId calls st session :
  st !! sessionId = Some session →
  ∃ session',
    (chatSequence sessionId calls st).2 !! sessionId = Some session'
    ∧ filename session' = filename session
    ∧ uploadedAt session' = uploadedAt session
    ∧ text session' = text session
    ∧ conversationHistory session' =
        conversationHistory session
        ++ Spec.turns (successes calls (chatSequence sessionId calls st).1).
Proof.
  revert st session. induction calls as [|[env question] calls IH];
    intros st session Hs.
  - exists session. by rewrite app_nil_r.
  - cbn [chatSequence].
    destruct (chat_step env sessionId question st) as
      [(Hex & _ & Hst)|(s0 & a & c & Hs0 & Hex & _ & Hst)];
      destruct (chatWithDocument env _ st) as [r st1]; cbn [fst snd] in *.
    + subst st1. destruct (IH st session Hs) as (s' & Hs' & Hf & Hu & Ht & Hh).
      destruct (chatSequence sessionId calls st) as [rs st2]; cbn [fst snd] in *.
      exists s'. repeat split; try done. rewrite Hh.
      cbn [successes]. by rewrite Hex.
    + rewrite Hs in Hs0. injection Hs0 as <-. subst st1.
      destruct (IH (<[sessionId := pushExchange question a session]> st)
                  (pushExchange question a session))
        as (s' & Hs' & Hf & Hu & Ht & Hh); [by rewrite lookup_insert_eq |].
      destruct (chatSequence sessionId calls _) as [rs st2]; cbn [fst snd] in *.
      exists s'. repeat split; try done. rewrite Hh.
      cbn [successes]. rewrite Hex, turns_cons.
      cbn [pushExchange conversationHistory]. by rewrite <- !app_assoc.
Qed.

Lemma pairsOf_turns exchanges :
  Spec.pairsOf (Spec.turns exchanges) = exchangePair <$> exchanges.
Proof.
  induction exchanges as [|[q a] r IH]; [done |].
  rewrite turns_cons. cbn [Spec.pairsOf]. by rewrite IH.
Qed.

(** The transcript shows what was exchanged: after any sequence of chat
    requests on a freshly uploaded session, the export of that session
    answers 200 with the header followed by one block per successful
    call, in order and numbered from 1, holding that call's question and
    answer; failed calls leave no trace, and without a successful call
    the body says that no questions were asked. *)
Theorem export_after_chats (env : Env) (sessionId : jsstring)
    (calls : list (Env * jsstring)) st (session : DocumentSession) :
  sessionId ≠ [] →
  st !! sessionId = Some session →
  conversationHistory session = [] →
  let out := chatSequence sessionId calls st in
  let ok := successes calls out.1 in
  (exportNotes env sessionId out.2).1
  = {| status := 200;
       body :=
         ExportNotesResponse
           (Spec.header env session
            ++ (if bool_decide (ok = [])
                then lit "No questions asked yet.
"
                else Spec.blocks 1 (exchangePair <$> ok)))
           (stripExtension (filename session) ++ lit "_notes.md") |}.
Proof.
  intros Hid Hs Hempty out ok.
  destruct (chatSequence_session sessionId calls st session Hs)
    as (s' & Hs' & Hf & Hu & _ & Hh).
  fold out in Hs', Hh. fold ok in Hh. rewrite Hempty in Hh. cbn [app] in Hh.
  unfold exportNotes. rewrite (truthy_true _ Hid), Hs'. cbn [negb fst].
  rewrite renderMarkdown_spec, Hh, pairsOf_turns, Hf.
  assert (Spec.header env s' = Spec.header env session) as ->
    by (unfold Spec.header; by rewrite Hf, Hu).
  do 3 f_equal. destruct ok as [|[q a] ok']; [done |].
  rewrite turns_cons. by rewrite !bool_decide_eq_false_2.
Qed.

(** *** The name of the exported file *)

Lemma stripExtension_keeps (name : jsstring) :
  NodePath.CHAR_DOT ∉ name → stripExtension name = name.
Proof.
  induction name as [|c name IH]; intros Hn; [done |].
  cbn [stripExtension].
  assert (c ≠ NodePath.CHAR_DOT) as Hc by (intros ->; apply Hn; left).
  apply N.eqb_neq in Hc. rewrite Hc. cbn [andb].
  rewrite IH; [done |]. intros H. apply Hn. by right.
Qed.

Lemma stripExtension_last (base e : jsstring) :
  e ≠ [] →
  Forall (λ c, c ≠ NodePath.CHAR_DOT ∧ c ≠ NodePath.CHAR_FORWARD_SLASH) e →
  stripExtension (base ++ NodePath.CHAR_DOT :: e) = base.
Proof.
  intros Hne He. induction base as [|c base IH].
  - cbn [app stripExtension]. rewrite N.eqb_refl, (truthy_true _ Hne).
    cbn [andb].
    assert (forallb (λ d, negb ((d =? NodePath.CHAR_FORWARD_SLASH)
                                || (d =? NodePath.CHAR_DOT))) e = true) as ->;
      [| done].
    apply forallb_forall. intros d Hd%list_elem_of_In.
    rewrite Forall_forall in He. destruct (He d Hd) as [H1 H2].
    apply N.eqb_neq in H1, H2. by rewrite H1, H2.
  - cbn [app stripExtension]. rewrite IH.
    assert (forallb (λ d, negb ((d =? NodePath.CHAR_FORWARD_SLASH)
                                || (d =? NodePath.CHAR_DOT)))
              (base ++ NodePath.CHAR_DOT :: e) = false) as ->.
    { apply not_true_is_false. intros H.
      rewrite forallb_forall in H.
      specialize (H NodePath.CHAR_DOT).
      rewrite N.eqb_refl, orb_true_r in H. cbn in H.
      assert (false = true) by (apply H, list_elem_of_In, elem_of_app; right; left).
      done. }
    by rewrite !andb_false_r.
Qed.

(** The exported file is named after the document without its last
    extension: for a session whose document is [base.ext], with an
    extension free of dots and slashes, the export names the file
    [base_notes.md]; a name without any dot is kept whole. *)
Theorem export_filename (env : Env) (sessionId : jsstring) st
    (session : DocumentSession) (base e : jsstring) :
  sessionId ≠ [] → st !! sessionId = Some session →
  (filename session = base ++ NodePath.CHAR_DOT :: e →
   e ≠ [] →
   Forall (λ c, c ≠ NodePath.CHAR_DOT ∧ c ≠ NodePath.CHAR_FORWARD_SLASH) e →
   body (exportNotes env sessionId st).1
   = ExportNotesResponse (renderMarkdown env session) (base ++ lit "_notes.md"))
  ∧ (NodePath.CHAR_DOT ∉ filename session →
     body (exportNotes env sessionId st).1
     = ExportNotesResponse (renderMarkdown env session)
         (filename session ++ lit "_notes.md")).
Proof.
  intros Hid Hs. unfold exportNotes. rewrite (truthy_true _ Hid), Hs.
  cbn [negb fst body]. split.
  - intros -> Hne He. by rewrite stripExtension_last.
  - intros Hn. by rewrite stripExtension_keeps.
Qed.

End ChatThenExport.

Lemma export_after_chats_witness :
  (exportNotes (answering (Returns None)) (lit "3f2b")
     (chatSequence (lit "3f2b")
        [ (answering (Throws OtherValue), lit "Why?");
          (answering (Returns (Some (lit "ANSWER: Blue."))), lit "Colour?") ]
        sampleSessions).2).1
  = {| status := 200;
       body :=
         ExportNotesResponse
           (lit "# Document Q&A Notes

**Document:** report.final.pdf
**Date:** 11/14/2023, 10:13:20 PM

---

## Q1: Colour?

**Answer:**

Blue.

---

")
           (lit "report.final_notes.md") |}.
Proof.
  rewrite (export_after_chats (answering (Returns None)) (lit "3f2b")
             [ (answering (Throws OtherValue), lit "Why?");
               (answering (Returns (Some (lit "ANSWER: Blue."))), lit "Colour?") ]
             sampleSessions sampleSession);
    [by vm_compute | done | by vm_compute | reflexivity].
Defined.

Lemma export_filename_witness :
  body (exportNotes (answering (Returns None)) (lit "3f2b") sampleSessions).1
  = ExportNotesResponse (renderMarkdown (answering (Returns None)) sampleSession)
      (lit "report.final_notes.md").
Proof.
  apply (export_filename (answering (Returns None)) (lit "3f2b") sampleSessions
           sampleSession (lit "report.final") (lit "pdf"));
    [done | by vm_compute | reflexivity | done |].
  repeat constructor; by vm_compute.
Defined.

(** ** The prompt of a chat request *)

Section Prompt.

Lemma buildMessages_alternating question documentText history :
  Nat.Even (length history) →
  (∀ i turn, history !! i = Some turn → role turn = roleAt i) →
  alternatingPrompt (buildMessages question documentText history)
  ∧ last (buildMessages question documentText history)
    = Some {| msg_role := chat_user; msg_content := question |}.
Proof.
  intros [k Hk] Hroles. split.
  - intros i message. unfold buildMessages. cbn [app].
    destruct i as [|j]; [by intros [= <-] |]. cbn [lookup list_lookup].
    change (promptRoleAt (S j)) with (if Nat.odd (S j) then chat_user else assistant).
    rewrite Nat.odd_succ.
    intros [H|[Hj H]]%lookup_app_Some.
    + apply list_lookup_fmap_Some in H as (turn & -> & Hturn).
      cbn [msg_role]. rewrite (Hroles _ _ Hturn). unfold roleAt.
      by destruct (Nat.even j).
    + rewrite length_fmap in Hj, H.
      destruct (j - length history)%nat as [|n] eqn:E; [| by destruct n].
      injection H as <-. cbn [msg_role].
      replace j with (0 + 2 * k)%nat by lia.
      by rewrite Nat.even_add_mul_2.
  - unfold buildMessages. by rewrite !app_assoc, last_snoc.
Qed.

(** Every prompt that a chat request can build from a stored session
    starts with the system message, continues with user and assistant
    messages strictly in turn, and ends with the new question as a user
    message -- whatever requests the server handled before. *)
Theorem prompt_alternates (requests : list Request) :
  map_Forall
    (λ _ session,
       ∀ question,
         alternatingPrompt
           (buildMessages question (text session)
              (conversationHistory session))
         ∧ last (buildMessages question (text session)
                   (conversationHistory session))
           = Some {| msg_role := chat_user; msg_content := question |})
    (serve requests ∅).2.
Proof.
  intros id session Hs question.
  assert (map_Forall sessionInvariant (serve requests ∅).2) as Hinv
    by apply serve_invariant, map_Forall_empty.
  destruct (Hinv id session Hs) as (_ & _ & He & Hr).
  by apply buildMessages_alternating.
Qed.

End Prompt.

(** ** What the extractor returns, by declared type *)

Section ExtractionByType.

Import DocumentProcessor.

Variable w : World.

Lemma failed_inj m1 m2 : failed m1 = failed m2 → m1 = m2.
Proof. by intros [= ->]. Qed.

Lemma rethrow_prefix prefix e t :
  rethrow prefix e = Throws t →
  ∃ message, t = ErrorObject (prefix ++ message).
Proof. destruct e as [m|]; intros [= <-]; by eexists. Qed.

(** A failed extraction says which decoder failed: its message is that
    of the underlying failure after the decoder's own prefix. *)
Lemma extractors_prefix filePath t :
  (extractTextFromPDF w filePath = Throws t →
   ∃ m, t = ErrorObject (lit "Failed to extract text from PDF: " ++ m))
  ∧ (extractTextFromDOCX w filePath = Throws t →
     ∃ m, t = ErrorObject (lit "Failed to extract text from DOCX: " ++ m))
  ∧ (extractTextFromTXT w filePath = Throws t →
     ∃ m, t = ErrorObject (lit "Failed to read TXT file: " ++ m)).
Proof.
  split; [| split].
  - unfold extractTextFromPDF.
    destruct (readFile w filePath) as [buf|e]; [| apply rethrow_prefix].
    destruct (pdfParse w buf) as [o|e]; [| apply rethrow_prefix].
    destruct (blank o); [apply rethrow_prefix | done].
  - unfold extractTextFromDOCX.
    destruct (extractRawText w filePath) as [o|e]; [| apply rethrow_prefix].
    destruct (blank o); [apply rethrow_prefix | done].
  - unfold extractTextFromTXT.
    destruct (readFileUtf8 w filePath) as [o|e]; [| apply rethrow_prefix].
    destruct (blank (Some o)); [apply rethrow_prefix | done].
Qed.

(** The existence of the file is checked first, then the declared type:
    a missing file is reported as such whatever its type; for a file that
    exists, the result is "Unsupported file type" exactly when the type
    is not one of the three allowed ones, and no decoder failure is ever
    reported under that message. *)
Theorem unsupported_type filePath mimetype :
  (∀ e, access w filePath = Throws e →
        processDocument w filePath mimetype = failed (lit "File not found"))
  ∧ (access w filePath = Returns () →
     (mimetype ∉ ALLOWED_MIME_TYPES ↔
      processDocument w filePath mimetype
      = failed (lit "Unsupported file type: " ++ mimetype))).
Proof.
  split; [by unfold processDocument; intros e -> |].
  intros Hacc. unfold processDocument. rewrite Hacc.
  unfold ALLOWED_MIME_TYPES. rewrite !not_elem_of_cons.
  assert (∀ m prefix, prefix = lit "Failed to extract text from PDF: "
                      ∨ prefix = lit "Failed to extract text from DOCX: "
                      ∨ prefix = lit "Failed to read TXT file: " →
                      failed (prefix ++ m)
                      ≠ failed (lit "Unsupported file type: " ++ mimetype))
    as Hdiff.
  { intros m prefix [-> | [-> | ->]] H%failed_inj; by vm_compute in H. }
  repeat case_bool_decide; subst.
  - split; [tauto |]. intros Hfail. exfalso.
    destruct (extractTextFromPDF w filePath) as [t|[m|]] eqn:E; try done.
    destruct (proj1 (extractors_prefix filePath _) E) as [m' Hm].
    assert (m = lit "Failed to extract text from PDF: " ++ m') as ->
      by congruence.
    eapply Hdiff; [| exact Hfail]. tauto.
  - split; [tauto |]. intros Hfail. exfalso.
    destruct (extractTextFromDOCX w filePath) as [t|[m|]] eqn:E; try done.
    destruct (proj1 (proj2 (extractors_prefix filePath _)) E) as [m' Hm].
    assert (m = lit "Failed to extract text from DOCX: " ++ m') as ->
      by congruence.
    eapply Hdiff; [| exact Hfail]. tauto.
  - split; [tauto |]. intros Hfail. exfalso.
    destruct (extractTextFromTXT w filePath) as [t|[m|]] eqn:E; try done.
    destruct (proj2 (proj2 (extractors_prefix filePath _)) E) as [m' Hm].
    assert (m = lit "Failed to read TXT file: " ++ m') as -> by congruence.
    eapply Hdiff; [| exact Hfail]. tauto.
  - split; [done |]. intros _. repeat split; try done. apply not_elem_of_nil.
Qed.

(** For a PDF and for a DOCX file that exists, extraction succeeds
    exactly when the decoder returns a text with a character that is not
    white space, and the result then holds that text trimmed.  A decoder
    that returns no text or white space only makes the extraction fail as
    an empty document; a read or a decoder that throws makes it fail with
    the thrown message (or "Unknown error" for a value that is not an
    [Error]) after the extractor's prefix. *)
Theorem decoded_documents filePath :
  access w filePath = Returns () →
  (∀ buffer decoded,
     readFile w filePath = Returns buffer →
     pdfParse w buffer = Returns decoded →
     processDocument w filePath (lit "application/pdf")
     = match decoded with
       | Some t =>
           if bool_decide (trim t = [])
           then failed (lit "Failed to extract text from PDF: PDF document is empty or contains no extractable text")
           else {| pd_success := true; pd_text := trim t; pd_error := None |}
       | None =>
           failed (lit "Failed to extract text from PDF: PDF document is empty or contains no extractable text")
       end)
  ∧ (∀ decoded,
       extractRawText w filePath = Returns decoded →
       processDocument w filePath
         (lit "application/vnd.openxmlformats-officedocument.wordprocessingml.document")
       = match decoded with
         | Some t =>
             if bool_decide (trim t = [])
             then failed (lit "Failed to extract text from DOCX: DOCX document is empty or contains no extractable text")
             else {| pd_success := true; pd_text := trim t; pd_error := None |}
         | None =>
             failed (lit "Failed to extract text from DOCX: DOCX document is empty or contains no extractable text")
         end)
  ∧ (∀ e,
       (readFile w filePath = Throws e
        ∨ ∃ buffer, readFile w filePath = Returns buffer
                    ∧ pdfParse w buffer = Throws e) →
       processDocument w filePath (lit "application/pdf")
       = failed (lit "Failed to extract text from PDF: "
                 ++ match e with
                    | ErrorObject message => message
                    | OtherValue => lit "Unknown error"
                    end))
  ∧ (∀ e,
       extractRawText w filePath = Throws e →
       processDocument w filePath
         (lit "application/vnd.openxmlformats-officedocument.wordprocessingml.document")
       = failed (lit "Failed to extract text from DOCX: "
                 ++ match e with
                    | ErrorObject message => message
                    | OtherValue => lit "Unknown error"
                    end))
  ∧ (pd_success (processDocument w filePath (lit "application/pdf")) = true
     ↔ ∃ buffer t,
         readFile w filePath = Returns buffer
         ∧ pdfParse w buffer = Returns (Some t) ∧ trim t ≠ [])
  ∧ (pd_success
       (processDocument w filePath
          (lit "application/vnd.openxmlformats-officedocument.wordprocessingml.document"))
     = true
     ↔ ∃ t, extractRawText w filePath = Returns (Some t) ∧ trim t ≠ []).
Proof.
  intros Hacc. unfold processDocument. rewrite Hacc.
  rewrite bool_decide_eq_true_2 by done.
  assert (bool_decide
            (lit "application/vnd.openxmlformats-officedocument.wordprocessingml.document"
             = lit "application/pdf") = false) as -> by by vm_compute.
  rewrite bool_decide_eq_true_2 by done.
  split; [| split; [| split; [| split; [| split]]]].
  - intros buffer decoded Hr Hp. unfold extractTextFromPDF. rewrite Hr, Hp.
    destruct decoded as [t|]; [| done]. unfold blank. rewrite blank_guard.
    by case_bool_decide.
  - intros decoded Hd. unfold extractTextFromDOCX. rewrite Hd.
    destruct decoded as [t|]; [| done]. unfold blank. rewrite blank_guard.
    by case_bool_decide.
  - intros e [Hr|(buffer & Hr & Hp)]; unfold extractTextFromPDF; rewrite Hr;
      [| rewrite Hp]; by destruct e.
  - intros e Hd. unfold extractTextFromDOCX. rewrite Hd. by destruct e.
  - unfold extractTextFromPDF.
    destruct (readFile w filePath) as [buffer|e];
      [| split; [by destruct e | by intros (? & ? & [=] & _)]].
    destruct (pdfParse w buffer) as [decoded|e] eqn:Hp;
      [| split; [by destruct e
                | intros (? & ? & [= <-] & Hp' & _); congruence]].
    destruct decoded as [t|];
      [| split; [done | intros (? & ? & [= <-] & Hp' & _); congruence]].
    unfold blank. rewrite blank_guard. case_bool_decide as Ht.
    + split; [done |]. intros (? & t' & [= <-] & Hp' & Ht').
      assert (t' = t) as -> by congruence. done.
    + split; [| done]. intros _. by exists buffer, t.
  - unfold extractTextFromDOCX.
    destruct (extractRawText w filePath) as [decoded|e];
      [| split; [by destruct e | by intros (? & [=] & _)]].
    destruct decoded as [t|]; [| split; [done | by intros (? & [=] & _)]].
    unfold blank. rewrite blank_guard. case_bool_decide as Ht.
    + split; [done |]. by intros (t' & [= <-] & Ht').
    + split; [| done]. intros _. by exists t.
Qed.

End ExtractionByType.

Lemma unsupported_type_witness :
  DocumentProcessor.processDocument (sampleWorld (lit "x")) (lit "uploads/a.png")
    (lit "image/png")
  = DocumentProcessor.failed (lit "Unsupported file type: image/png").
Proof.
  apply (unsupported_type (sampleWorld (lit "x")) (lit "uploads/a.png")
           (lit "image/png")); [reflexivity |].
  intros H. apply (bool_decide_pack _) in H. by vm_compute in H.
Defined.

Lemma decoded_documents_witness :
  DocumentProcessor.processDocument (sampleWorld (lit "x")) (lit "uploads/a.pdf")
    (lit "application/pdf")
  = DocumentProcessor.failed
      (lit "Failed to extract text from PDF: PDF document is empty or contains no extractable text").
Proof.
  apply (proj1 (decoded_documents (sampleWorld (lit "x")) (lit "uploads/a.pdf")
                  eq_refl) [] None); reflexivity.
Defined.

(** ** Extensions *)

Section Extensions.

Import NodePath.

Local Open Scope Z_scope.

Implicit Types codes stem seg name : jsstring.

Lemma rev_reverse {A} (l : list A) : rev l = reverse l.
Proof. unfold reverse. apply rev_alt. Qed.

(** Without a dot the scan of [extname] never finds where an extension
    starts. *)
Lemma extname_loop_no_dot codes i st :
  CHAR_DOT ∉ codes → startDot (extname_loop codes i st) = startDot st.
Proof.
  revert i st. induction codes as [|c codes IH]; intros i st Hn; [done |].
  assert (c ≠ CHAR_DOT) as Hc by (intros ->; apply Hn; left).
  assert (CHAR_DOT ∉ codes) as Hn' by (intros H; apply Hn; by right).
  apply N.eqb_neq in Hc. cbn [extname_loop].
  destruct (c =? CHAR_FORWARD_SLASH)%N.
  - destruct (negb (matchedSlash st)); [done | by apply IH].
  - rewrite Hc. rewrite IH by done.
    destruct (endIdx st =? -1); cbn [startDot];
      by destruct (negb (_ =? -1)).
Qed.

Lemma extname_no_dot name : CHAR_DOT ∉ name → extname name = [].
Proof.
  intros Hn. unfold extname.
  rewrite extname_loop_no_dot by by rewrite rev_reverse, elem_of_reverse.
  done.
Qed.

Local Abbreviation scan sd e m p :=
  {| startDot := sd; startPart := 0; endIdx := e; matchedSlash := m;
     preDotState := p |} (only parsing).

Ltac fields :=
  repeat (progress (cbn [startDot startPart endIdx matchedSlash preDotState
                         negb];
                    try change (-1 =? -1) with true; cbv iota)).

Lemma plain_not_slash c : plainChar c → (c =? CHAR_FORWARD_SLASH)%N = false.
Proof. intros [_ H]. by apply N.eqb_neq. Qed.

Lemma plain_not_dot c : plainChar c → (c =? CHAR_DOT)%N = false.
Proof. intros [H _]. by apply N.eqb_neq. Qed.

(** Once the end of the name is known, the characters of the extension
    change nothing until the dot is met. *)
Lemma extname_loop_segment codes rest i e m :
  e ≠ -1 → Forall plainChar codes →
  extname_loop (codes ++ rest) i (scan (-1) e m 0)
  = extname_loop rest (i - Z.of_nat (length codes)) (scan (-1) e m 0).
Proof.
  intros He Hc. revert i. induction Hc as [|c codes Hc _ IH]; intros i.
  - cbn [app length]. f_equal. lia.
  - cbn [app extname_loop].
    rewrite (plain_not_slash c Hc), (plain_not_dot c Hc). fields.
    pose proof He as He'. apply Z.eqb_neq in He'. rewrite He'. fields.
    rewrite IH. f_equal. cbn [length]. lia.
Qed.

Lemma extname_loop_first c codes rest i m :
  0 ≤ i → Forall plainChar (c :: codes) →
  extname_loop ((c :: codes) ++ rest) i (scan (-1) (-1) m 0)
  = extname_loop rest (i - Z.of_nat (length (c :: codes)))
      (scan (-1) (i + 1) false 0).
Proof.
  intros Hi Hc. inversion Hc as [|? ? Hc1 Hc2]; subst.
  cbn [app extname_loop].
  rewrite (plain_not_slash c Hc1), (plain_not_dot c Hc1). fields.
  rewrite extname_loop_segment by (done || lia).
  f_equal. cbn [length]. lia.
Qed.

Lemma extname_loop_dot rest d e m :
  extname_loop (CHAR_DOT :: rest) d (scan (-1) e m 0)
  = extname_loop rest (d - 1)
      (scan d (if e =? -1 then d + 1 else e) (if e =? -1 then false else m) 0).
Proof.
  cbn [extname_loop]. change (CHAR_DOT =? CHAR_FORWARD_SLASH)%N with false.
  cbv iota. rewrite N.eqb_refl. fields. destruct (e =? -1); by fields.
Qed.

(** Before the dot, only the kind of the character matters, and the
    last one processed decides. *)
Lemma extname_loop_stem codes i d e p :
  d ≠ -1 → e ≠ -1 → CHAR_FORWARD_SLASH ∉ codes →
  extname_loop codes i (scan d e false p)
  = scan d e false
      (match last codes with
       | None => p
       | Some c => if (c =? CHAR_DOT)%N then 1 else -1
       end).
Proof.
  intros Hd He. apply Z.eqb_neq in Hd, He.
  revert i p. induction codes as [|c codes IH]; intros i p Hs; [done |].
  assert ((c =? CHAR_FORWARD_SLASH)%N = false) as Hc
    by (apply N.eqb_neq; intros ->; apply Hs; left).
  assert (CHAR_FORWARD_SLASH ∉ codes) as Hs' by (intros H; apply Hs; by right).
  cbn [extname_loop]. rewrite Hc. fields. rewrite He. fields. rewrite Hd.
  fields. destruct (c =? CHAR_DOT)%N eqn:Ec.
  - destruct (p =? 1) eqn:Ep; fields.
    + apply Z.eqb_eq in Ep as ->. rewrite IH by done.
      rewrite last_cons. destruct (last codes); [done | by rewrite Ec].
    + rewrite IH by done. rewrite last_cons.
      destruct (last codes); [done | by rewrite Ec].
  - rewrite IH by done. rewrite last_cons.
    destruct (last codes); [done | by rewrite Ec].
Qed.

Lemma extname_loop_name stem seg :
  CHAR_FORWARD_SLASH ∉ stem → Forall plainChar seg →
  extname_loop (rev (stem ++ CHAR_DOT :: seg))
    (Z.of_nat (length (stem ++ CHAR_DOT :: seg)) - 1) (scan (-1) (-1) true 0)
  = scan (Z.of_nat (length stem))
      (Z.of_nat (length (stem ++ CHAR_DOT :: seg))) false
      (match head stem with
       | None => 0
       | Some c => if (c =? CHAR_DOT)%N then 1 else -1
       end).
Proof.
  intros Hstem Hseg.
  assert (last (rev stem) = head stem) as Hlast
    by (by rewrite rev_reverse, last_reverse).
  assert (CHAR_FORWARD_SLASH ∉ rev stem) as Hstem'
    by (by rewrite rev_reverse, elem_of_reverse).
  rewrite rev_app_distr. cbn [rev]. rewrite <- app_assoc. cbn [app].
  rewrite length_app. cbn [length].
  destruct (rev seg) as [|c codes] eqn:E.
  - assert (seg = []) as -> by (by apply (f_equal (@rev _)) in E;
                                  rewrite rev_involutive in E).
    cbn [app length]. rewrite extname_loop_dot. fields.
    rewrite extname_loop_stem by (done || lia). rewrite Hlast.
    f_equal; lia.
  - assert (Forall plainChar (c :: codes)) as Hc.
    { rewrite <- E, rev_reverse. by apply Forall_reverse. }
    assert (length seg = length (c :: codes)) as Hlen
      by (by rewrite <- E, length_rev).
    rewrite extname_loop_first by (done || lia).
    rewrite extname_loop_dot.
    assert ((Z.of_nat (length stem + S (length seg)) - 1 + 1 =? -1) = false)
      as -> by (apply Z.eqb_neq; lia).
    rewrite extname_loop_stem by (done || lia). rewrite Hlast.
    f_equal; lia.
Qed.

(** [extname] of a name without slashes, split at its last dot: the
    extension is what starts at that dot, unless nothing precedes the dot
    or the name is ".." . *)
Lemma extname_split stem seg :
  CHAR_FORWARD_SLASH ∉ stem → Forall plainChar seg →
  extname (stem ++ CHAR_DOT :: seg)
  = if bool_decide (stem = [] ∨ (stem = [CHAR_DOT] ∧ seg = []))
    then [] else CHAR_DOT :: seg.
Proof.
  intros Hstem Hseg. unfold extname.
  rewrite (extname_loop_name stem seg Hstem Hseg).
  cbn [startDot endIdx preDotState startPart].
  assert (slice (stem ++ CHAR_DOT :: seg) (Z.of_nat (length stem))
            (Z.of_nat (length (stem ++ CHAR_DOT :: seg))) = CHAR_DOT :: seg)
    as ->.
  { unfold slice. rewrite Nat2Z.id, drop_app_length.
    apply take_ge. rewrite length_app. cbn [length]. lia. }
  assert ((Z.of_nat (length stem) =? -1) = false) as ->
    by (apply Z.eqb_neq; lia).
  assert ((Z.of_nat (length (stem ++ CHAR_DOT :: seg)) =? -1) = false) as ->
    by (apply Z.eqb_neq; lia).
  cbn [orb]. rewrite length_app. cbn [length].
  destruct stem as [|c stem]; [done |]. cbn [head].
  destruct (c =? CHAR_DOT)%N eqn:Ec.
  - apply N.eqb_eq in Ec as ->. change (1 =? 0) with false.
    change (1 =? 1) with true. cbn [orb andb].
    destruct stem as [|c' stem], seg as [|s seg]; cbn [length].
    + rewrite bool_decide_eq_true_2; [done | by right].
    + rewrite bool_decide_eq_false_2 by (intros [?|[_ ?]]; done).
      by destruct (Z.eqb_spec (Z.of_nat 1) (Z.of_nat (1 + S (S (length seg))) - 1));
        [lia |].
    + rewrite bool_decide_eq_false_2 by (intros [?|[? _]]; done).
      destruct (_ =? _ - 1); [| done].
      by destruct (Z.eqb_spec (Z.of_nat (S (S (length stem)))) (0 + 1));
        [lia |].
    + rewrite bool_decide_eq_false_2 by (intros [?|[_ ?]]; done).
      by destruct (Z.eqb_spec (Z.of_nat (S (S (length stem))))
                     (Z.of_nat (S (S (length stem)) + S (S (length seg))) - 1));
        [lia |].
  - change (-1 =? 0) with false. change (-1 =? 1) with false. cbn [orb andb].
    rewrite bool_decide_eq_false_2; [done |].
    intros [Hd|[Hd _]]; [done |]. injection Hd as -> _.
    by rewrite N.eqb_refl in Ec.
Qed.

End Extensions.

(** ** Client-side and server-side validation *)

Section ClientAndServer.

Import NodePath.

Implicit Types name stem seg acc : jsstring.

Lemma lastSegment_no_dot acc seg :
  CHAR_DOT ∉ seg → FileUpload.lastSegment acc seg = acc ++ seg.
Proof.
  revert acc. induction seg as [|c seg IH]; intros acc Hn;
    [by rewrite app_nil_r |].
  assert (c ≠ CHAR_DOT) as Hc by (intros ->; apply Hn; left).
  apply N.eqb_neq in Hc. cbn [FileUpload.lastSegment]. rewrite Hc.
  rewrite IH by (intros H; apply Hn; by right).
  by rewrite <- app_assoc.
Qed.

Lemma lastSegment_split acc stem seg :
  CHAR_DOT ∉ seg → FileUpload.lastSegment acc (stem ++ CHAR_DOT :: seg) = seg.
Proof.
  intros Hn. revert acc. induction stem as [|c stem IH]; intros acc.
  - cbn [app FileUpload.lastSegment]. rewrite N.eqb_refl.
    by rewrite lastSegment_no_dot.
  - cbn [app FileUpload.lastSegment]. destruct (c =? CHAR_DOT); apply IH.
Qed.

Lemma last_dot_split name :
  CHAR_DOT ∈ name →
  ∃ stem seg, name = stem ++ CHAR_DOT :: seg ∧ CHAR_DOT ∉ seg.
Proof.
  induction name as [|c name IH]; [by intros ?%elem_of_nil |].
  intros Hin. destruct (decide (CHAR_DOT ∈ name)) as [Hd|Hd].
  - destruct (IH Hd) as (stem & seg & -> & Hseg). by exists (c :: stem), seg.
  - apply elem_of_cons in Hin as [<-|?]; [| done]. by exists [], name.
Qed.

Lemma toLowerCase_dot seg :
  toLowerCase (CHAR_DOT :: seg) = lit "." ++ toLowerCase seg.
Proof. done. Qed.

Lemma allowed_not_empty ext : ext ∈ ALLOWED_EXTENSIONS → ext ≠ [] ∧ ext ≠ lit ".".
Proof.
  unfold ALLOWED_EXTENSIONS. rewrite !elem_of_cons, elem_of_nil.
  intros [->|[->|[->|[]]]]; by split.
Qed.

(** The extension that the server derives from a name without slashes
    is allowed exactly when the name has a stem and the extension that
    the browser derives from it is allowed. *)
Lemma extensions_agree name :
  CHAR_FORWARD_SLASH ∉ name →
  toLowerCase (extname name) ∈ ALLOWED_EXTENSIONS
  ↔ (lit "." ++ toLowerCase (FileUpload.lastSegment [] name)
       ∈ FileUpload.ACCEPTED_TYPES)
    ∧ hasStem name.
Proof.
  intros Hslash. change FileUpload.ACCEPTED_TYPES with ALLOWED_EXTENSIONS.
  assert (∀ stem seg, name = stem ++ CHAR_DOT :: seg → CHAR_DOT ∉ seg →
          (CHAR_FORWARD_SLASH ∉ stem) ∧ Forall plainChar seg) as Hparts.
  { intros stem seg -> Hseg. split.
    - intros H. apply Hslash, elem_of_app. by left.
    - apply Forall_forall. intros c Hc. split; intros ->; [done |].
      apply Hslash, elem_of_app. right. by right. }
  split.
  - intros Hext. destruct (decide (CHAR_DOT ∈ name)) as [Hd|Hd].
    + destruct (last_dot_split name Hd) as (stem & seg & -> & Hseg).
      destruct (Hparts stem seg eq_refl Hseg) as [H1 H2].
      rewrite extname_split in Hext by done.
      rewrite lastSegment_split by done.
      case_bool_decide as Hc.
      * by destruct (allowed_not_empty _ Hext).
      * rewrite toLowerCase_dot in Hext. split; [done |].
        exists stem, seg. split; [| done]. intros ->. apply Hc. by left.
    + rewrite extname_no_dot in Hext by done.
      by destruct (allowed_not_empty _ Hext).
  - intros [Hext (stem & seg & Hstem & -> & Hseg)].
    destruct (Hparts stem seg eq_refl Hseg) as [H1 H2].
    rewrite lastSegment_split in Hext by done.
    rewrite extname_split by done.
    rewrite bool_decide_eq_false_2; [by rewrite toLowerCase_dot |].
    intros [?|[_ ->]]; [done |].
    by destruct (allowed_not_empty _ Hext).
Qed.

(** The browser's check and the server's, compared on the same name,
    declared type and size, differ in two places only.  For a name
    without slashes, the upload middleware accepts a file exactly when
    [validateFile] accepts it, the last dot of the name is not its first
    character, and the size is not exactly 10,485,760 bytes.  So a file
    named like an extension ("pdf", ".pdf") and a file of exactly 10 MiB
    pass the browser's check and are refused by the server. *)
Theorem client_server_agree (timestamp : N) (name mimetype : jsstring)
    (bytes : N) :
  CHAR_FORWARD_SLASH ∉ name →
  (∃ stored,
     Upload.uploadMiddleware timestamp
       {| Upload.originalname := name; Upload.in_mimetype := mimetype;
          Upload.size := bytes |}
     = inr stored)
  ↔ FileUpload.validateFile
      {| FileUpload.name := name; FileUpload.type := mimetype;
         FileUpload.size := bytes |} = None
    ∧ hasStem name ∧ bytes ≠ 10485760.
Proof.
  intros Hslash. pose proof (extensions_agree _ Hslash) as Hext.
  unfold Upload.uploadMiddleware, Upload.fileFilter, FileUpload.validateFile.
  cbn [Upload.originalname Upload.in_mimetype Upload.size
       FileUpload.name FileUpload.type FileUpload.size].
  change FileUpload.ACCEPTED_MIME_TYPES with ALLOWED_MIME_TYPES.
  change FileUpload.MAX_FILE_SIZE with MAX_FILE_SIZE.
  change 10485760 with MAX_FILE_SIZE.
  destruct (N.ltb_spec MAX_FILE_SIZE bytes) as [Hlt|Hle];
    destruct (N.leb_spec MAX_FILE_SIZE bytes) as [Hge|Hgt]; try lia.
  - split; [| by intros [? _]]. intros [stored H].
    by repeat case_bool_decide.
  - split; [| intros (_ & _ & ?); lia]. intros [stored H].
    by repeat case_bool_decide.
  - split.
    + intros [stored H]. repeat case_bool_decide; try done; try tauto.
      split; [done |]. split; [tauto | lia].
    + intros (H & Hstem & _). repeat case_bool_decide; try done;
        try (by eexists); tauto.
Qed.

End ClientAndServer.

Lemma client_server_agree_witness :
  ∃ stored,
    Upload.uploadMiddleware 1700000000000
      {| Upload.originalname := lit "Annual Report.PDF";
         Upload.in_mimetype := lit "application/pdf";
         Upload.size := 2048 |}
    = inr stored.
Proof.
  apply (client_server_agree 1700000000000 (lit "Annual Report.PDF")
           (lit "application/pdf") 2048).
  - intros H. apply (bool_decide_pack _) in H. by vm_compute in H.
  - split; [by vm_compute |]. split; [| done].
    exists (lit "Annual Report"), (lit "PDF"). split; [done |].
    split; [reflexivity |].
    intros H. apply (bool_decide_pack _) in H. by vm_compute in H.
Defined.

(** ** Stored names and the outcome of an upload *)

Section StoredNames.

Import NodePath Upload.

Implicit Types s : jsstring.

Lemma digits_safe (d : Decimal.uint) :
  Forall (λ c, safeInName c = true) (lit (NilEmpty.string_of_uint d)).
Proof.
  induction d; cbn [NilEmpty.string_of_uint]; [constructor | ..];
    apply Forall_cons; (split; [reflexivity | assumption]).
Qed.

Lemma sanitized_safe s :
  Forall (λ c, safeInName c = true)
    ((λ c, if keptInName c then c else 0x5f) <$> s).
Proof.
  apply Forall_fmap, Forall_forall. intros c _. cbn.
  unfold safeInName. destruct (keptInName c) eqn:E; [by rewrite E | done].
Qed.

Lemma lower_safe (c : char) :
  safeInName (if (0x41 <=? c) && (c <=? 0x5a) then c + 0x20 else c) = true →
  safeInName c = true.
Proof.
  destruct ((0x41 <=? c) && (c <=? 0x5a)) eqn:E; [| done].
  intros _. unfold safeInName, keptInName. rewrite E.
  by rewrite orb_true_r.
Qed.

Lemma toLowerCase_safe s :
  Forall (λ c, safeInName c = true) (toLowerCase s) →
  Forall (λ c, safeInName c = true) s.
Proof.
  unfold toLowerCase. rewrite Forall_fmap. intros H.
  eapply Forall_impl; [exact H |]. intros c. apply lower_safe.
Qed.

Lemma allowed_safe ext :
  ext ∈ ALLOWED_EXTENSIONS → Forall (λ c, safeInName c = true) ext.
Proof.
  unfold ALLOWED_EXTENSIONS. rewrite !elem_of_cons, elem_of_nil.
  intros [->|[->|[->|[]]]]; by repeat constructor.
Qed.

(** The name under which an accepted upload is stored contains nothing
    but ASCII letters, digits, hyphens, underscores and dots, whatever
    the client called the file; in particular it has no slash, and the
    stored path is that name inside the upload directory. *)
Theorem stored_name_safe (timestamp : N) (file : IncomingFile)
    (stored : StoredFile) :
  uploadMiddleware timestamp file = inr stored →
  st_path stored = lit "uploads/" ++ st_filename stored
  ∧ Forall (λ c, safeInName c = true) (st_filename stored)
  ∧ (CHAR_FORWARD_SLASH ∉ st_filename stored).
Proof.
  unfold uploadMiddleware, fileFilter.
  case_bool_decide as Hext; [| done]. cbn [negb].
  case_bool_decide as Hmime; [| done]. cbn [negb].
  destruct (MAX_FILE_SIZE <=? size file); [done |].
  intros [= <-]. cbn [st_path st_filename]. split; [done |].
  assert (Forall (λ c, safeInName c = true)
            (storage_filename timestamp (originalname file))) as Hsafe.
  { unfold storage_filename. cbv zeta.
    apply Forall_app. split; [apply sanitized_safe |].
    apply Forall_app. split; [by repeat constructor |].
    apply Forall_app. split; [apply digits_safe |].
    by apply toLowerCase_safe, allowed_safe. }
  split; [done |]. intros Hin.
  by apply (proj1 (Forall_forall _ _) Hsafe) in Hin.
Qed.


End StoredNames.

Lemma stored_name_safe_witness :
  ∃ stored,
    Upload.uploadMiddleware 1700000000000
      {| Upload.originalname := lit "../../etc/my report (v2).PdF";
         Upload.in_mimetype := lit "application/pdf";
         Upload.size := 2048 |}
    = inr stored
    ∧ (NodePath.CHAR_FORWARD_SLASH ∉ Upload.st_filename stored).
Proof.
  eexists. split; [vm_compute; reflexivity |].
  apply (stored_name_safe 1700000000000
           {| Upload.originalname := lit "../../etc/my report (v2).PdF";
              Upload.in_mimetype := lit "application/pdf";
              Upload.size := 2048 |}).
  vm_compute. reflexivity.
Defined.
